(** * jenny: content negotiation, codec resolution, operation pipelines, scope guards

    A shallow embedding of the Go packages [mime], [encoders], [decoders],
    [auth], [http] and [options] of github.com/jennyservices/jenny, as vendored
    by the shorter service, together with the properties checked against it.

    Conventions.
    - A Go [map[string]V] is a [gmap string V]; a nil inner map and an empty one
      behave alike in every function embedded here (lookups miss, [range] yields
      nothing), so both are the empty [gmap].
    - A [float64] weight is a rational [Q]: the code only copies and compares
      weights, and the q-values an Accept header can carry are decimal fractions.
    - The order in which [range] delivers a map and the algorithm behind
      [sort.Slice] belong to the Go runtime and library; they are the two fields
      of [GoRuntime], and [GoRuntimeSpec] holds what Go promises of them. *)

From Stdlib Require Import ZArith QArith Bool Ascii String.
From stdpp Require Import gmap strings list fin_maps.

Local Open Scope string_scope.
Local Open Scope Z_scope.

(** ** Go library functions on strings *)

Module GoStrings.

Definition slash : ascii := "/"%char.
Definition plus : ascii := "+"%char.

Definition is_char (c d : ascii) : bool := Ascii.eqb c d.

(** [path.Split]: the text up to and including the last slash, and the rest. *)
Fixpoint path_Split (p : string) : string * string :=
  match p with
  | EmptyString => (EmptyString, EmptyString)
  | String c rest =>
      let '(dir, file) := path_Split rest in
      match dir with
      | EmptyString =>
          if is_char c slash then (String c EmptyString, file)
          else (EmptyString, String c file)
      | _ => (String c dir, file)
      end
  end.

Fixpoint TrimLeft_slash (s : string) : string :=
  match s with
  | EmptyString => EmptyString
  | String c rest => if is_char c slash then TrimLeft_slash rest else s
  end.

Fixpoint TrimRight_slash (s : string) : string :=
  match s with
  | EmptyString => EmptyString
  | String c rest =>
      match TrimRight_slash rest with
      | EmptyString => if is_char c slash then EmptyString else String c EmptyString
      | rest' => String c rest'
      end
  end.

(** [strings.Trim(s, "/")] *)
Definition Trim_slash (s : string) : string := TrimRight_slash (TrimLeft_slash s).

(** [strings.Split(s, "+")]: one more piece than there are separators, so the
    result is never empty. *)
Fixpoint Split_plus (s : string) : list string :=
  match s with
  | EmptyString => [EmptyString]
  | String c rest =>
      if is_char c plus then EmptyString :: Split_plus rest
      else match Split_plus rest with
           | piece :: pieces => String c piece :: pieces
           | [] => [String c EmptyString]
           end
  end.

(** [strings.Compare]: -1, 0 or +1 by byte-wise lexical order. *)
Definition Compare (a b : string) : Z :=
  match String.compare a b with
  | Lt => -1
  | Eq => 0
  | Gt => 1
  end.

(** [%q] of a string without characters that need escaping *)
Definition quote (s : string) : string :=
  String (ascii_of_nat 34) s +:+ String (ascii_of_nat 34) EmptyString.

(** [strings.Join(l, sep)] *)
Fixpoint Join (l : list string) (sep : string) : string :=
  match l with
  | [] => EmptyString
  | [s] => s
  | s :: rest => s +:+ sep +:+ Join rest sep
  end.

End GoStrings.

(** ** Errors

    Go errors are values with a message; the constructors are the places of the
    embedded packages that create one. *)

Inductive error : Type :=
  | ErrCouldntFindAccepts
  | Wrap (err : error) (message : string)
  | ErrNotRegisteredEncoder (s : string)
  | ErrNotRegisteredDecoder (s : string)
  | ErrCouldntFindDecoder (accepts : list string)
  | ErrMissingScopes (missingScopes : list string)
  | ErrHTTP (message : string) (code : Z).

Definition Error (e : error) : string :=
  (fix msg (e : error) : string :=
     match e with
     | ErrCouldntFindAccepts => "can't find accepts in header"
     | Wrap err message => message +:+ ": " +:+ msg err
     | ErrNotRegisteredEncoder s => s +:+ " isn't a registered encoder"
     | ErrNotRegisteredDecoder s => s +:+ " isn't a registered decoder"
     | ErrCouldntFindDecoder accepts =>
         "coudln't find decoder for [" +:+ GoStrings.Join (GoStrings.quote <$> accepts) " "
         +:+ "]"
     | ErrMissingScopes missingScopes =>
         "request is missing these scopes: " +:+ GoStrings.Join missingScopes ", "
     | ErrHTTP message _ => message
     end) e.

(** ** The Go runtime: map iteration order and [sort.Slice] *)

Class GoRuntime : Type := {
  (** the sequence in which a [range] loop delivers the entries of a map *)
  range : ∀ {V : Type}, gmap string V → list (string * V);
  (** [sort.Slice(x, less)]: the slice after sorting *)
  sort_Slice : ∀ {A : Type}, (A → A → bool) → list A → list A;
}.

(** What Go promises: [range] visits every entry once, in no particular order;
    [sort.Slice] rearranges the slice. (That the result is ordered is promised only
    for a [less] that is a strict weak order.) *)
Class GoRuntimeSpec (R : GoRuntime) : Prop := {
  range_perm : ∀ (V : Type) (m : gmap string V), range m ≡ₚ map_to_list m;
  sort_Slice_perm : ∀ (A : Type) (less : A → A → bool) (l : list A), sort_Slice less l ≡ₚ l;
}.

(** [insertionSortLessFunc] of package sort, which is all [sort.Slice] runs on a
    slice of at most six elements in every Go release (twelve since Go 1.19):
<<
  for i := a + 1; i < b; i++ {
    for j := i; j > a && less(data[j], data[j-1]); j-- { swap(j, j-1) }
  }
>>
    [sink less x prefix_rev] is the inner loop: [x] moves leftwards from the
    right end of the prefix already processed, which is held right to left. *)
Fixpoint sink {A : Type} (less : A → A → bool) (x : A) (prefix_rev : list A) : list A :=
  match prefix_rev with
  | [] => [x]
  | y :: before => if less x y then y :: sink less x before else x :: prefix_rev
  end.

Definition insertionSort {A : Type} (less : A → A → bool) (data : list A) : list A :=
  reverse (foldl (λ prefix_rev x, sink less x prefix_rev) [] data).

(** ** Package mime *)

Module mime.

Import GoStrings.

(** [type Types map[string]map[string]float64] *)
Abbreviation Types := (gmap string (gmap string Q)).

(** [type Type string]: a media type is its string. *)

Definition TextPlain : string := "text/plain".
Definition ApplicationJSON : string := "application/json".
Definition ApplicationXML : string := "application/xml".
Definition ApplicationOctet : string := "application/octet-stream".
Definition ApplicationFormURLEncoded : string := "application/x-www-form-urlencoded".

Definition wildcard : string := "*".

(** [header.AcceptSpec] *)
Record AcceptSpec : Type := { Value : string; Q_ : Q }.

(** [g[group][subType] = q], after [if g[group] == nil { g[group] = make(...) }] *)
Definition set_weight (g : Types) (group subType : string) (q : Q) : Types :=
  <[group := <[subType := q]> (default ∅ (g !! group))]> g.

(** [b[group][subgroup]] with its [ok] *)
Definition get_weight (g : Types) (group subType : string) : option Q :=
  g !! group ≫= λ subs, subs !! subType.

Definition add_exploded (g : Types) (v : string) (q : Q) : Types :=
  let '(group, subgroup) := path_Split v in
  let group := Trim_slash group in
  foldl (λ g subType, set_weight g group subType q) g (Split_plus subgroup).

(** [RequestTypes], on the specs that [header.ParseAccept] found in the header *)
Definition RequestTypes (specs : list AcceptSpec) : Types :=
  foldl (λ g v, add_exploded g (Value v) (Q_ v)) ∅ specs.

Definition Aggregate (list : list string) : Types :=
  foldl (λ g s, add_exploded g s 1%Q) ∅ list.

Definition SubGroup (t : string) : string := (path_Split t).2.

Definition Group (t : string) : string := Trim_slash (path_Split t).1.

Record mimeSpec : Type := { typ : string; subTyp : string; q : Q }.

Definition Sprintf_slash (a b : string) : string := a +:+ "/" +:+ b.

Definition spec_Type (s : mimeSpec) : string := Sprintf_slash (typ s) (subTyp s).

Definition Qgt (x y : Q) : bool := negb (Qle_bool x y).

(** the [less] closure handed to [sort.Slice] in [Walk] *)
Definition less (x y : mimeSpec) : bool :=
  Qgt (q x) (q y) || (0 <? Compare (typ x) (typ y) + Compare (subTyp x) (subTyp y)).

(** [type WalkFunc func(Type) error]; the variables the closure captures and
    assigns are the state [S]. *)
Definition WalkFunc (S : Type) : Type := string → S → S * option error.

Fixpoint walk_loop {S : Type} (wf : WalkFunc S) (types : list mimeSpec) (st : S)
  : S * option error :=
  match types with
  | [] => (st, None)
  | t :: rest =>
      match wf (spec_Type t) st with
      | (st', Some err) => (st', Some err)
      | (st', None) => walk_loop wf rest st'
      end
  end.

Section Walk.
Context `{R : GoRuntime}.

(** the two nested [range] loops that fill [types] *)
Definition collect (t : Types) : list mimeSpec :=
  flat_map (λ '(typ, subTyps),
              (λ '(subTyp, q), {| typ := typ; subTyp := subTyp; q := q |}) <$> range subTyps)
           (range t).

(** [types] after [sort.Slice] *)
Definition sorted_specs (t : Types) : list mimeSpec := sort_Slice less (collect t).

Definition Walk {S : Type} (t : Types) (wf : WalkFunc S) (st : S) : S * option error :=
  walk_loop wf (sorted_specs t) st.

(** the sequence of types a complete walk hands to its callback *)
Definition Walk_types (t : Types) : list string := spec_Type <$> sorted_specs t.

(** the first step of [Intersect]: when [b] holds [*/*], every type of a walk
    over [a] is written into [b] *)
Definition expand (a b : Types) : Types :=
  match b !! wildcard with
  | Some x =>
      match x !! wildcard with
      | Some q =>
          (Walk a (λ m b, (set_weight b (Group m) (SubGroup m) q, None)) b).1
      | None => b
      end
  | None => b
  end.

Definition select (a b : Types) : Types :=
  foldl (λ g '(group, subgroups),
           match b !! group with
           | None => g
           | Some bgroup =>
               let wildcarded := bool_decide (is_Some (bgroup !! wildcard)) in
               foldl (λ g '(subgroup, _),
                        let found := bgroup !! subgroup in
                        if bool_decide (is_Some found) || wildcarded
                        then set_weight g group subgroup (default 0%Q found)
                        else g)
                     g (range subgroups)
           end)
        ∅ (range a).

(** [Intersect] writes into the map [b] it is given; the second component is
    [b] as the caller finds it afterwards. *)
Definition Intersect (a b : Types) : Types * Types :=
  let b := expand a b in
  (select a b, b).

End Walk.

End mime.

(** ** Package http: the request context *)

Module jennyhttp.

(** [stdjwt.Claims] values: [MapClaims] or any other implementation. *)
Inductive Claims : Type :=
  | MapClaims (m : gmap string string)
  | OtherClaims (payload : string).

(** [*stdjwt.Token] *)
Record Token : Type := { Raw : string; TokenClaims : Claims; Valid : bool }.

(** what may sit under [kitjwt.JWTClaimsContextKey]: the code asserts it to
    [*stdjwt.Token] in one place and to [stdjwt.Claims] in another; a [*Token]
    is not a [Claims]. *)
Inductive ClaimsValue : Type :=
  | IsToken (token : Token)
  | IsClaims (claims : Claims).

(** [auth.User] *)
Record User : Type := { UniqueID : string }.

(** The entries of a [context.Context] that the embedded code reads or writes;
    [None] is a key without a value (of the asserted type). *)
Record Context : Type := {
  Accepts : option mime.Types;             (* ContextKeyAccepts *)
  JWTClaims : option ClaimsValue;          (* kitjwt.JWTClaimsContextKey *)
  UserValue : option User;                 (* auth.UserContextKey *)
  ScopesValue : option (list string);      (* auth.ScopesContextKey *)
}.

Definition Background : Context :=
  {| Accepts := None; JWTClaims := None;
     UserValue := None; ScopesValue := None |}.

Definition WithAccepts (ctx : Context) (t : mime.Types) : Context :=
  {| Accepts := Some t; JWTClaims := JWTClaims ctx;
     UserValue := UserValue ctx; ScopesValue := ScopesValue ctx |}.

Definition WithJWTClaims (ctx : Context) (v : ClaimsValue) : Context :=
  {| Accepts := Accepts ctx; JWTClaims := Some v;
     UserValue := UserValue ctx; ScopesValue := ScopesValue ctx |}.

Definition WithUser (ctx : Context) (u : User) : Context :=
  {| Accepts := Accepts ctx; JWTClaims := JWTClaims ctx;
     UserValue := Some u; ScopesValue := ScopesValue ctx |}.

Definition WithScopes (ctx : Context) (scopes : list string) : Context :=
  {| Accepts := Accepts ctx; JWTClaims := JWTClaims ctx;
     UserValue := UserValue ctx; ScopesValue := Some scopes |}.

Definition ContextAccepts (ctx : Context) : mime.Types + error :=
  match Accepts ctx with
  | Some accepts => inl accepts
  | None => inr ErrCouldntFindAccepts
  end.

End jennyhttp.

(** ** Package encoders *)

Module encoders.

Import mime jennyhttp.

Inductive EncoderCtor : Type :=
  | JSONEncoder | XMLEncoder | TextEncoder | FormEncoder | ByteEncoder
  | CustomEncoder (id : nat).

(** [type NewEncoderFunc func(io.Writer) Encoder]; [None] is the nil func. *)
Abbreviation NewEncoderFunc := (option EncoderCtor).

(** the package variable [encoders] as initialised *)
Definition registry0 : gmap string NewEncoderFunc :=
  <[ApplicationJSON := Some JSONEncoder]>
  (<[ApplicationXML := Some XMLEncoder]>
  (<[TextPlain := Some TextEncoder]>
  (<[ApplicationFormURLEncoded := Some FormEncoder]>
  (<[ApplicationOctet := Some ByteEncoder]> ∅)))).

Definition Register (s : string) (n : NewEncoderFunc) (encoders : gmap string NewEncoderFunc)
  : gmap string NewEncoderFunc :=
  <[s := n]> encoders.

(** the closure handed to [Walk]; its captured variables are [newEnc] and [mimeType] *)
Definition pick (encoders : gmap string NewEncoderFunc)
  : WalkFunc (NewEncoderFunc * string) :=
  λ s '(newEnc, mimeType),
    match newEnc with
    | Some _ => ((newEnc, mimeType), None)
    | None =>
        match encoders !! s with
        | Some nef => ((nef, s), None)
        | None => ((newEnc, mimeType), Some (ErrNotRegisteredEncoder s))
        end
    end.

Section ResponseEncoder.
Context `{R : GoRuntime}.

(** [available], after the fall-back to the server's own graph *)
Definition candidates (serverGraph clientGraph : Types) : Types :=
  let available := (Intersect serverGraph clientGraph).1 in
  if (size available <? 1)%nat then serverGraph else available.

(** The Go function returns [(newEnc, mimeType, nil)] or [(nil, "", err)]. *)
Definition ResponseEncoder (encoders : gmap string NewEncoderFunc)
    (ctx : Context) (accepts : list string)
  : NewEncoderFunc * string + error :=
  match ContextAccepts ctx with
  | inr err => inr (Wrap err "response encoder")
  | inl clientGraph =>
      let serverGraph := Aggregate accepts in
      let available := candidates serverGraph clientGraph in
      let '((newEnc, mimeType), err) := Walk available (pick encoders) (None, "") in
      match err with
      | Some err => inr err
      | None =>
          match newEnc with
          | None => inl (default None (encoders !! ApplicationOctet), ApplicationOctet)
          | Some _ =>
              if bool_decide (mimeType = "")
              then inl (default None (encoders !! ApplicationOctet), ApplicationOctet)
              else inl (newEnc, mimeType)
          end
      end
  end.

End ResponseEncoder.

End encoders.

(** ** Package auth *)

Module auth.

Import jennyhttp.

Section Endpoints.
(** [request interface{}] and [response interface{}] *)
Context {Request Response : Type}.

(** go-kit's [endpoint.Endpoint] and [endpoint.Middleware] *)
Definition Endpoint : Type := Context → Request → Response + error.
Definition Middleware : Type := Endpoint → Endpoint.

Definition JWTScopesExtrator : Type := gmap string string → list string + error.
Definition JWTUserExtractor : Type := Claims → User + error.

(** the context that [ScopesToContext] hands to [next] *)
Definition scopes_ctx (claimsScopes : JWTScopesExtrator) (ctx : Context) : Context :=
  match JWTClaims ctx with
  | Some (IsToken token) =>
      match TokenClaims token with
      | MapClaims mapClaims =>
          match claimsScopes mapClaims with
          | inl user => WithScopes ctx user
          | inr _ => ctx
          end
      | OtherClaims _ => ctx
      end
  | _ => ctx
  end.

Definition ScopesToContext (claimsScopes : JWTScopesExtrator) : Middleware :=
  λ next ctx request, next (scopes_ctx claimsScopes ctx) request.

(** the context that [UserToContext] hands to [next] *)
Definition user_ctx (claimsUser : JWTUserExtractor) (ctx : Context) : Context :=
  match JWTClaims ctx with
  | Some (IsClaims claims) =>
      match claimsUser claims with
      | inl user => WithUser ctx user
      | inr _ => ctx
      end
  | _ => ctx
  end.

Definition UserToContext (claimsUser : JWTUserExtractor) : Middleware :=
  λ next ctx request, next (user_ctx claimsUser ctx) request.

(** [RequireScopes(scopes)] builds the map [x] once; the endpoint it returns
    captures [x], so every invocation reads and writes the same map. *)
Definition RequireScopes (scopes : list string) : gmap string bool :=
  foldl (λ x scope, <[scope := false]> x) ∅ scopes.

Section Guard.
Context `{R : GoRuntime}.

(** One invocation of the endpoint returned by [RequireScopes(scopes)(next)],
    started with the captured map holding [x]; the second component is the
    captured map when the invocation returns. [checkList := x] copies the
    map header, not the entries. *)
Definition RequireScopes_endpoint (next : Endpoint)
    (ctx : Context) (request : Request) (x : gmap string bool)
  : (Response + error) * gmap string bool :=
  let scopes := default [] (ScopesValue ctx) in
  let checkList := foldl (λ checkList scope, <[scope := true]> checkList) x scopes in
  let '(hasAccess, missingScopes) :=
    foldl (λ '(hasAccess, missingScopes) '(scope, checked),
             (hasAccess && checked, (missingScopes ++ [scope])%list))
          (true, []) (range checkList) in
  (if negb hasAccess then inr (ErrMissingScopes missingScopes) else next ctx request,
   checkList).

End Guard.

Definition ContextUser (ctx : Context) : User + error :=
  match UserValue ctx with
  | Some u => inl u
  | None => inr (ErrHTTP "user not found in context" 401)
  end.

End Endpoints.

End auth.

(** ** Package decoders *)

Module decoders.

Import mime.

(** the part of an [http.Response] or [http.Request] the package reads *)
Record Message : Type := { ContentType : string; Body : string }.

(** the registered constructors; a decoder is a constructor applied to a body,
    so a registered constructor is callable and returns a non-nil decoder, as
    the three built-in ones do *)
Inductive newDecoder : Type :=
  | JSONDecoder | XMLDecoder | FormDecoder
  | CustomDecoder (id : nat).

Record Decoder : Type := { constructor : newDecoder; reader : string }.

(** the package variable [decoders] as initialised *)
Definition registry0 : gmap string newDecoder :=
  <[ApplicationJSON := JSONDecoder]>
  (<[ApplicationXML := XMLDecoder]>
  (<[ApplicationFormURLEncoded := FormDecoder]> ∅)).

Definition Register (s : string) (d : newDecoder) (decoders : gmap string newDecoder)
  : gmap string newDecoder :=
  <[s := d]> decoders.

(** the closure both functions hand to [Walk]; its captured variable is [dec] *)
Definition assign (decoders : gmap string newDecoder) (body : string)
  : WalkFunc (option Decoder) :=
  λ x dec,
    match decoders !! x with
    | Some decoderFunc => (Some {| constructor := decoderFunc; reader := body |}, None)
    | None => (dec, Some (ErrNotRegisteredDecoder x))
    end.

Section Decoders.
Context `{R : GoRuntime}.
(** [header.ParseAccept] of github.com/golang/gddo, applied to a header that
    holds the given string *)
Variable ParseAccept : string → list AcceptSpec.

Definition NewTypes (s : string) : Types := RequestTypes (ParseAccept s).

(** The Go function returns the pair [(Decoder, error)]; either may be nil. *)
Definition ResponseDecoder (decoders : gmap string newDecoder) (r : Message)
  : option Decoder * option error :=
  let serverSent := NewTypes (ContentType r) in
  let '(dec, err) := Walk serverSent (assign decoders (Body r)) None in
  match dec with
  | None => (None, err)
  | Some dec => (Some dec, None)
  end.

Definition RequestDecoder (decoders : gmap string newDecoder) (r : Message)
    (accepts : list string)
  : option Decoder * option error :=
  let serverAccepts := Aggregate accepts in
  let clientSent := NewTypes (ContentType r) in
  let available := (Intersect serverAccepts clientSent).1 in
  (* [if len(available) < 0] never holds *)
  let '(dec, err) := Walk available (assign decoders (Body r)) None in
  match err with
  | Some err => (None, Some err)
  | None =>
      match dec with
      | None => (None, Some (ErrCouldntFindDecoder accepts))
      | Some dec => (Some dec, None)
      end
  end.

End Decoders.

End decoders.

(** ** Package stack of github.com/golang-collections/collections

    A LIFO list, top first. [Pop] on an empty stack returns nil. *)
Module stack.
Section Stack.
Context {A : Type}.
Definition New : list A := [].
Definition Push (value : A) (s : list A) : list A := value :: s.
Definition Pop (s : list A) : option A * list A :=
  match s with
  | [] => (None, [])
  | value :: rest => (Some value, rest)
  end.
Definition Len (s : list A) : nat := length s.
End Stack.
End stack.

(** ** Package options *)

Module options.

Section Pipeline.
(** go-kit's [endpoint.Endpoint]; composing middlewares does not look inside. *)
Context {Endpoint : Type}.

Definition Middleware : Type := Endpoint → Endpoint.

(** go-kit's [endpoint.Chain]: [outer] is applied last, so it runs first. *)
Definition Chain (outer : Middleware) (others : list Middleware) : Middleware :=
  λ next, outer (foldr (λ other next, other next) next others).

(** The collaborators the options carry, and the middleware constructors
    of the packages [kittracing], [errors] and [auth] applied to them. *)
Context {Tracer Reporter Keyfunc SigningMethod ClaimsFactory UserExtractor ScopesExtractor : Type}.

Class Stages : Type := {
  TraceClient : Tracer → string → Middleware;
  ErrorReporter : Reporter → string → Middleware;
  JWTToContext : Keyfunc → SigningMethod → ClaimsFactory → Middleware;
  UserToContext : UserExtractor → Middleware;
  ScopesToContext : ScopesExtractor → Middleware;
}.

(** A [*stack.Stack] is an address in the heap of stacks. *)
Abbreviation Heap := (gmap nat (list Middleware)).

(** The fields [errorEncoder] and [jwtFunc] feed [HTTPOptions] only and are
    left out. A nil func or interface is [None]. *)
Record Options : Type := {
  tracer : Tracer;
  errorReporter : Reporter;
  kf : option Keyfunc;
  sm : option SigningMethod;
  cf : option ClaimsFactory;
  userFunc : option UserExtractor;
  scopesFunc : option ScopesExtractor;
  middlewares : gmap string nat;
}.

(** [New], given the no-op tracer and reporter *)
Definition New (noopTracer : Tracer) (noopReporter : Reporter) : Options :=
  {| tracer := noopTracer; errorReporter := noopReporter;
     kf := None; sm := None; cf := None; userFunc := None; scopesFunc := None;
     middlewares := ∅ |}.

Definition with_middlewares (m : Options) (table : gmap string nat) : Options :=
  {| tracer := tracer m; errorReporter := errorReporter m;
     kf := kf m; sm := sm m; cf := cf m; userFunc := userFunc m; scopesFunc := scopesFunc m;
     middlewares := table |}.

(** [st.Push(v)] and [st.Pop().(endpoint.Middleware)] through the pointer [st];
    the type assertion panics on the nil that an empty stack returns, and
    [None] is that panic. *)
Definition push (st : nat) (v : Middleware) (h : Heap) : Heap :=
  <[st := stack.Push v (default [] (h !! st))]> h.

Definition pop (st : nat) (h : Heap) : option (Middleware * Heap) :=
  match stack.Pop (default [] (h !! st)) with
  | (Some v, rest) => Some (v, <[st := rest]> h)
  | (None, _) => None
  end.

Definition len (st : nat) (h : Heap) : nat := stack.Len (default [] (h !! st)).

(** [for i := operationStack.Len(); i > 0; i-- { mware = Chain(mware, Pop()) }] *)
Fixpoint chain_loop (i : nat) (mware : Middleware) (st : nat) (h : Heap)
  : option (Middleware * Heap) :=
  match i with
  | O => Some (mware, h)
  | S i =>
      match pop st h with
      | Some (v, h) => chain_loop i (Chain mware [v]) st h
      | None => None
      end
  end.

Context `{S : Stages}.

Definition OpMiddlewares (m : Options) (operation : string) (h : Heap)
  : option (Middleware * Heap) :=
  let '(operationStack, h) :=
    match middlewares m !! operation with
    | Some st => (st, h)
    | None => let st := fresh (dom h) in (st, <[st := stack.New]> h)
    end in
  let h := match scopesFunc m with
           | Some f => push operationStack (ScopesToContext f) h
           | None => h
           end in
  let h := match userFunc m with
           | Some f => push operationStack (UserToContext f) h
           | None => h
           end in
  let h := match kf m, sm m, cf m with
           | Some k, Some s, Some c => push operationStack (JWTToContext k s c) h
           | _, _, _ => h
           end in
  let h := push operationStack (TraceClient (tracer m) operation) h in
  let h := push operationStack (ErrorReporter (errorReporter m) operation) h in
  match pop operationStack h with
  | Some (mware, h) => chain_loop (len operationStack h) mware operationStack h
  | None => None
  end.

Definition RegisterMiddleware (m : Options) (op : string) (mws : list Middleware) (h : Heap)
  : Options * Heap :=
  let '(m, st, h) :=
    match middlewares m !! op with
    | Some st => (m, st, h)
    | None =>
        let st := fresh (dom h) in
        (with_middlewares m (<[op := st]> (middlewares m)), st, <[st := stack.New]> h)
    end in
  (m, foldl (λ h mw, push st mw h) h mws).

End Pipeline.

End options.

(** ** Package encoders: the negotiating middleware *)

Module encoders_middleware.
Import mime jennyhttp encoders.

Section AcceptsMustMatch.
Context {Request Response : Type}.
Context `{R : GoRuntime}.


End AcceptsMustMatch.

(** [match]: [methodAccepts] is made empty and its inner maps are never made, so
    [methodAccepts[group][subgroup] = true] assigns to an entry of a nil map,
    which panics; [None] is that panic. Reading a nil inner map just misses. *)
Fixpoint fill (methodSpec : list string) (methodAccepts : gmap string (gmap string bool))
  : option (gmap string (gmap string bool)) :=
  match methodSpec with
  | [] => Some methodAccepts
  | a :: rest =>
      let '(group, subgroup) := GoStrings.path_Split a in
      match methodAccepts !! group with
      | None => None
      | Some inner => fill rest (<[group := <[subgroup := true]> inner]> methodAccepts)
      end
  end.

Definition match_ (specs : list AcceptSpec) (methodSpec : list string)
  : option (list AcceptSpec) :=
  match fill methodSpec ∅ with
  | None => None
  | Some methodAccepts =>
      Some (foldl (λ matches spec,
                     let '(group, subgroup) := GoStrings.path_Split (Value spec) in
                     match methodAccepts !! group ≫= λ inner, inner !! subgroup with
                     | Some _ =>
                         (matches ++ [ {| Value := Sprintf_slash group subgroup;
                                          Q_ := Q_ spec |} ])%list
                     | None => matches
                     end)
                  [] specs)
  end.

End encoders_middleware.

(** ** Package auth: tokens and basic authentication *)

Module auth_more.
Import jennyhttp.

(** [s[n:]] and [s[:n]] for [n] within the string *)
Fixpoint slice_from (n : nat) (s : string) : string :=
  match n, s with
  | O, _ => s
  | S n, String _ rest => slice_from n rest
  | S _, EmptyString => EmptyString
  end.

Fixpoint slice_to (n : nat) (s : string) : string :=
  match n, s with
  | O, _ => EmptyString
  | S n, String c rest => String c (slice_to n rest)
  | S _, EmptyString => EmptyString
  end.

(** [strings.IndexByte]: the index of the first [c] in [s], or -1 *)
Fixpoint IndexByte (s : string) (c : ascii) : Z :=
  match s with
  | EmptyString => -1
  | String a rest =>
      if Ascii.eqb a c then 0
      else let i := IndexByte rest c in if i <? 0 then -1 else i + 1
  end.

Definition prefix : string := "Basic ".

Section Basic.
(** [base64.StdEncoding.DecodeString]; [None] is its error *)
Variable DecodeString : string → option string.

(** The Go function returns [(username, password, ok)]; a bare [return] is
    [("", "", false)]. *)
Definition parseBasicAuth (auth : string) : string * string * bool :=
  if negb (String.prefix prefix auth) then ("", "", false)
  else match DecodeString (slice_from (String.length prefix) auth) with
       | None => ("", "", false)
       | Some cs =>
           let s := IndexByte cs ":"%char in
           if s <? 0 then ("", "", false)
           else (slice_to (Z.to_nat s) cs, slice_from (Z.to_nat (s + 1)) cs, true)
       end.

(** [BasicAuth], on what the context holds as a string under
    [ContextKeyRequestAuthorization] *)
Definition BasicAuth (authorization : option string) : string * string * bool :=
  match authorization with
  | Some auth => if bool_decide (auth = "") then ("", "", false) else parseBasicAuth auth
  | None => ("", "", false)
  end.

End Basic.

Definition ErrJWTNotFoundInContext : error := ErrHTTP "jwt not found in context" 401.

Definition ContextJWT (ctx : Context) : Token + error :=
  match JWTClaims ctx with
  | Some (IsToken jwtoken) => inl jwtoken
  | _ => inr (Wrap ErrJWTNotFoundInContext "jwt to context")
  end.

Section JWT.
Context {Request Response : Type}.
(** [stdjwt.ParseWithClaims(tokenString, newClaims(), keyFunc)], which returns a
    [*Token], nil for a string that is not three segments, and an error *)
Variable ParseWithClaims : string → option Token * option error.

(** The context that [JWTToContext] hands to [next], given what the context
    holds as a string under [kitjwt.JWTTokenContextKey]. The error of the
    parser is logged and dropped; [token.Valid] on a nil token panics, and
    [None] is that panic. *)
Definition jwt_ctx (tokenString : option string) (ctx : Context) : option Context :=
  match tokenString with
  | None => Some ctx
  | Some tokenString =>
      match (ParseWithClaims tokenString).1 with
      | None => None
      | Some token =>
          if negb (Valid token) then Some ctx
          else Some (WithJWTClaims ctx (IsClaims (TokenClaims token)))
      end
  end.

Definition JWTToContext (tokenString : option string)
    (next : auth.Endpoint (Request := Request) (Response := Response))
    (ctx : Context) (request : Request) : option (Response + error) :=
  match jwt_ctx tokenString ctx with
  | Some ctx => Some (next ctx request)
  | None => None
  end.

End JWT.

End auth_more.

(** ** Package errors *)

Module jennyerrors.
Import mime jennyhttp encoders.

(** [NewHTTPError(err, code)], for an [err] made by [errors.New(message)] *)
Definition NewHTTPError (message : string) (code : Z) : error := ErrHTTP message code.

(** [err.(HTTPError)]: only the values of [NewHTTPError] have a [StatusCode];
    an error wrapped by [errors.Wrap] has none. *)
Definition StatusCode (err : error) : option Z :=
  match err with
  | ErrHTTP _ code => Some code
  | _ => None
  end.

Section Reporting.
(** The world is what a reporter acts on; an endpoint may act on it too. *)
Context {Request Response World : Type}.

Definition Endpoint : Type := Context → Request → World → (Response + error) * World.
Definition Middleware : Type := Endpoint → Endpoint.

(** the interface [Reporter]; the error is [None] for nil *)
Class Reporter : Type := { Report : Context → option error → string → World → World }.

(** [defer reporter.Report(ctx, err, op)] evaluates its arguments where the
    [defer] statement stands, before [next] is called and while [err] is still
    nil; the call itself runs when the endpoint returns. *)
Definition ErrorReporter (reporter : Reporter) (op : string) : Middleware :=
  λ next ctx request world,
    let err : option error := None in
    let '(i, world) := next ctx request world in
    (i, Report ctx err op world).

End Reporting.

Definition NoopReporter {World : Type} : Reporter (World := World) :=
  {| Report := λ _ _ _ world, world |}.

(** what [DefaultErrorEncoder] does to an [http.ResponseWriter]: the
    Content-Type it sets, the status it writes, and the values handed to
    encoders on the writer *)
Record ResponseWriter : Type := {
  ContentType : option string;
  Status : option Z;
  Encoded : list (EncoderCtor * error);
}.

Section DefaultErrorEncoder.
Context `{R : GoRuntime}.

(** [None] is the panic of calling a nil [NewEncoderFunc]. The line that
    [log.Println] writes is left out: it does not touch the response. *)
Definition DefaultErrorEncoder (encoders : gmap string NewEncoderFunc)
    (ctx : Context) (err : error) (w : ResponseWriter) : option ResponseWriter :=
  let finish (enc : EncoderCtor) (w : ResponseWriter) : ResponseWriter :=
    let w := match StatusCode err with
             | Some code => {| ContentType := ContentType w; Status := Some code;
                               Encoded := Encoded w |}
             | None => w
             end in
    {| ContentType := ContentType w; Status := Status w;
       Encoded := (Encoded w ++ [(enc, err)])%list |} in
  match ResponseEncoder encoders ctx [ApplicationJSON; TextPlain] with
  | inr encErr => Some (finish TextEncoder w)
  | inl (newEncoder, mt) =>
      let w := {| ContentType := Some mt; Status := Status w; Encoded := Encoded w |} in
      match newEncoder with
      | Some enc => Some (finish enc w)
      | None => None
      end
  end.

End DefaultErrorEncoder.

End jennyerrors.

(** * Properties *)

(** ** Two runtimes

    Go randomises the order of [range] on purpose; [runtime_fwd] delivers a map in
    the order of its [gmap] representation and [runtime_bwd] in the opposite one.
    Both sort with [insertionSort]. *)

Definition runtime_fwd : GoRuntime :=
  {| range := λ V m, map_to_list m; sort_Slice := λ A less l, insertionSort less l |}.

Definition runtime_bwd : GoRuntime :=
  {| range := λ V m, reverse (map_to_list m); sort_Slice := λ A less l, insertionSort less l |}.

Lemma sink_perm {A : Type} (less : A → A → bool) (x : A) (l : list A) :
  sink less x l ≡ₚ x :: l.
Proof.
  induction l as [|y l IH]; simpl; [done|].
  destruct (less x y); [|done].
  rewrite IH. apply perm_swap.
Qed.

Lemma insertionSort_perm {A : Type} (less : A → A → bool) (l : list A) :
  insertionSort less l ≡ₚ l.
Proof.
  unfold insertionSort. rewrite reverse_Permutation.
  assert (∀ acc, foldl (λ p x, sink less x p) acc l ≡ₚ acc ++ l) as H.
  { induction l as [|x l IH]; intros acc; simpl.
    - by rewrite app_nil_r.
    - rewrite IH, sink_perm. simpl. apply Permutation_middle. }
  apply (H []).
Qed.

Lemma runtime_fwd_spec : GoRuntimeSpec runtime_fwd.
Proof. split; simpl; [done | intros; apply insertionSort_perm]. Qed.

Lemma runtime_bwd_spec : GoRuntimeSpec runtime_bwd.
Proof.
  split; simpl; [intros; apply reverse_Permutation | intros; apply insertionSort_perm].
Qed.

(** ** Walking a graph *)

Section WalkFacts.
Import mime.
Context `{R : GoRuntime}.

Lemma spec_Type_nonempty (t : mimeSpec) : spec_Type t ≠ "".
Proof.
  unfold spec_Type, Sprintf_slash. destruct (typ t) as [|c s]; simpl; discriminate.
Qed.

Context {RS : GoRuntimeSpec R}.

Lemma range_empty {V : Type} : range (∅ : gmap string V) = [].
Proof.
  apply Permutation_nil_r. rewrite range_perm. by rewrite map_to_list_empty.
Qed.

Lemma sorted_specs_empty : sorted_specs ∅ = [].
Proof.
  unfold sorted_specs, collect. rewrite range_empty. simpl.
  apply Permutation_nil_r. apply sort_Slice_perm.
Qed.

End WalkFacts.

(** ** Resolving the response encoder *)

Module ResolveExamples.
Import mime jennyhttp encoders.

(** [Accept: text/html, application/json;q=0.5] *)
Definition html_then_json : Types :=
  RequestTypes [ {| Value := "text/html"; Q_ := 1 |};
                 {| Value := "application/json"; Q_ := 1 # 2 |} ].

Definition ctx_html_then_json : Context := WithAccepts Background html_then_json.

(** [Accept: application/json] *)
Definition ctx_json : Context :=
  WithAccepts Background (RequestTypes [ {| Value := "application/json"; Q_ := 1 |} ]).

(** a request that accepts nothing, met by a server that offers nothing *)
Definition ctx_nothing : Context := WithAccepts Background ∅.
End ResolveExamples.

Section ResolveFacts.
Import mime jennyhttp encoders.
Context `{R : GoRuntime}.

(** the candidate the description promises: the first one, in walk order,
    that has an entry in the registry *)
Definition first_registered (encoders : gmap string NewEncoderFunc) (cands : list string)
  : option string :=
  head (filter (λ c, is_Some (encoders !! c)) cands).

Lemma walk_loop_pick_found encoders types nef c :
  walk_loop (pick encoders) types (Some nef, c) = ((Some nef, c), None).
Proof. induction types as [|t types IH]; simpl; [done | apply IH]. Qed.

Lemma Walk_types_cons t c rest :
  Walk_types t = c :: rest →
  ∃ s ss, sorted_specs t = s :: ss ∧ spec_Type s = c.
Proof.
  unfold Walk_types. destruct (sorted_specs t) as [|s ss]; [done|].
  intros [= <- _]. eauto.
Qed.

(** the candidates are the intersection, or the whole server graph when the
    intersection is empty *)
Lemma candidates_fallback (serverGraph clientGraph : Types) :
  candidates serverGraph clientGraph
  = if decide ((Intersect serverGraph clientGraph).1 = ∅)
    then serverGraph else (Intersect serverGraph clientGraph).1.
Proof.
  unfold candidates. destruct (decide _) as [Hempty|Hsome].
  - by rewrite Hempty, map_size_empty.
  - destruct (size _) as [|n] eqn:Hsize; [|done].
    by apply map_size_empty_iff in Hsize.
Qed.

(** C1, as the code has it: only the first candidate of the walk is looked up.
    With a client graph in the context and [c] the first candidate walked,
    [ResponseEncoder] returns [c] and its encoder when [c] has one, and fails
    with an error naming [c] when [c] has none; later candidates are not tried. *)
Theorem ResponseEncoder_first_candidate
    (encoders : gmap string NewEncoderFunc) (ctx : Context) (accepts : list string)
    (clientGraph : Types) (c : string) (rest : list string) :
  Accepts ctx = Some clientGraph →
  Walk_types (candidates (Aggregate accepts) clientGraph) = c :: rest →
  (∀ nef, encoders !! c = Some (Some nef) →
          ResponseEncoder encoders ctx accepts = inl (Some nef, c))
  ∧ (encoders !! c = None →
     ResponseEncoder encoders ctx accepts = inr (ErrNotRegisteredEncoder c)).
Proof.
  intros Hctx Hwalk.
  destruct (Walk_types_cons _ _ _ Hwalk) as (s & ss & Hs & Hc).
  unfold ResponseEncoder, ContextAccepts, Walk. rewrite Hctx, Hs. simpl. rewrite Hc.
  split.
  - intros nef Hnef. rewrite Hnef, walk_loop_pick_found.
    rewrite bool_decide_eq_false_2; [done|].
    rewrite <- Hc. apply spec_Type_nonempty.
  - intros Hnone. by rewrite Hnone.
Qed.

Context {RS : GoRuntimeSpec R}.

Lemma select_empty (b : Types) : select ∅ b = ∅.
Proof. unfold select. by rewrite range_empty. Qed.

Lemma set_weight_nonempty (g : Types) (group sub : string) (w : Q) :
  set_weight g group sub w ≠ ∅.
Proof. apply insert_non_empty. Qed.

Lemma add_exploded_nonempty (g : Types) (v : string) (w : Q) : add_exploded g v w ≠ ∅.
Proof.
  unfold add_exploded. destruct (GoStrings.path_Split v) as [dir file].
  assert (GoStrings.Split_plus file ≠ []) as Hpieces.
  { destruct file as [|c file]; simpl; [done|].
    destruct (GoStrings.is_char c GoStrings.plus); [done|].
    by destruct (GoStrings.Split_plus file). }
  assert (∀ pieces g0, g0 ≠ ∅ →
            foldl (λ g subType, set_weight g (GoStrings.Trim_slash dir) subType w) g0 pieces
            ≠ ∅) as Hkeep.
  { induction pieces as [|piece pieces IH]; intros g0 Hg0; simpl; [done|].
    apply IH, set_weight_nonempty. }
  destruct (GoStrings.Split_plus file) as [|piece pieces]; [done|]. simpl.
  apply Hkeep, set_weight_nonempty.
Qed.

Lemma Aggregate_empty_iff (accepts : list string) : Aggregate accepts = ∅ ↔ accepts = [].
Proof.
  split; [|by intros ->].
  unfold Aggregate. destruct accepts as [|s accepts]; [done|]. simpl. intros Hempty. exfalso.
  assert (∀ l g, g ≠ ∅ → foldl (λ g s, add_exploded g s 1%Q) g l ≠ ∅) as Hkeep.
  { induction l as [|s' l IH]; intros g Hg; simpl; [done|].
    apply IH, add_exploded_nonempty. }
  by apply (Hkeep accepts (add_exploded ∅ s 1%Q)); [apply add_exploded_nonempty|].
Qed.

(** there is no candidate exactly when the server offers no type *)
Lemma candidates_empty_iff (accepts : list string) (clientGraph : Types) :
  candidates (Aggregate accepts) clientGraph = ∅ ↔ accepts = [].
Proof.
  rewrite candidates_fallback. split.
  - destruct (decide _) as [_|Hsome]; [apply Aggregate_empty_iff | done].
  - intros ->. unfold Intersect. simpl.
    change (Aggregate []) with (∅ : Types). rewrite select_empty.
    by rewrite decide_True.
Qed.

(** C5, as the code has it: the reserved type is [application/octet-stream].
    With a client graph in the context and no candidate at all,
    [ResponseEncoder] returns [application/octet-stream] with whatever the
    registry holds for it, and no error. *)
Theorem ResponseEncoder_no_candidates
    (encoders : gmap string NewEncoderFunc) (ctx : Context) (accepts : list string)
    (clientGraph : Types) :
  Accepts ctx = Some clientGraph →
  candidates (Aggregate accepts) clientGraph = ∅ →
  ResponseEncoder encoders ctx accepts
  = inl (default None (encoders !! ApplicationOctet), "application/octet-stream").
Proof.
  intros Hctx Hnone.
  unfold ResponseEncoder, ContextAccepts, Walk. rewrite Hctx, Hnone.
  by rewrite sorted_specs_empty.
Qed.

End ResolveFacts.

Lemma ResponseEncoder_first_candidate_witness :
  encoders.ResponseEncoder (R := runtime_fwd) encoders.registry0
    ResolveExamples.ctx_json ["application/json"; "text/plain"]
  = inl (Some encoders.JSONEncoder, "application/json").
Proof.
  refine (proj1 (ResponseEncoder_first_candidate (R := runtime_fwd) encoders.registry0
                   ResolveExamples.ctx_json ["application/json"; "text/plain"]
                   _ "application/json" [] eq_refl _) encoders.JSONEncoder _).
  - vm_compute. reflexivity.
  - vm_compute. reflexivity.
Defined.

(** C1 as stated fails: for [Accept: text/html, application/json;q=0.5] and a
    server offering both, the walk starts with [text/html], which has no encoder;
    [application/json] is the first candidate with a registered encoder, yet the
    call fails. *)
Lemma ResponseEncoder_stops_at_unregistered :
  let accepts := ["text/html"; "application/json"] in
  let cands := mime.Walk_types (R := runtime_fwd)
                 (encoders.candidates (R := runtime_fwd) (mime.Aggregate accepts)
                    ResolveExamples.html_then_json) in
  cands = ["text/html"; "application/json"]
  ∧ first_registered encoders.registry0 cands = Some "application/json"
  ∧ encoders.ResponseEncoder (R := runtime_fwd) encoders.registry0
      ResolveExamples.ctx_html_then_json accepts
    = inr (ErrNotRegisteredEncoder "text/html").
Proof. vm_compute. auto. Qed.

Lemma ResponseEncoder_no_candidates_witness :
  encoders.ResponseEncoder (R := runtime_fwd) encoders.registry0 ResolveExamples.ctx_nothing []
  = inl (Some encoders.ByteEncoder, "application/octet-stream").
Proof.
  refine (ResponseEncoder_no_candidates (R := runtime_fwd) (RS := runtime_fwd_spec)
            encoders.registry0 ResolveExamples.ctx_nothing [] ∅ eq_refl _).
  vm_compute. reflexivity.
Defined.

(** C5 as stated fails: the type returned on the empty candidate set is not
    [binary/octet-stream]. *)
Lemma ResponseEncoder_fallback_is_not_binary :
  encoders.candidates (R := runtime_fwd) (mime.Aggregate []) ∅ = ∅
  ∧ ∃ enc t, encoders.ResponseEncoder (R := runtime_fwd) encoders.registry0
               ResolveExamples.ctx_nothing [] = inl (enc, t)
             ∧ t ≠ "binary/octet-stream".
Proof.
  split; [vm_compute; reflexivity|].
  eexists _, _. split; [vm_compute; reflexivity | discriminate].
Qed.


(** ** Extraction of the user and of the scopes *)

Module ExtractExamples.
Import jennyhttp auth.

(** a context that carries verified claims, as [stdjwt.Claims] *)
Definition ctx_claims : Context :=
  WithJWTClaims Background (IsClaims (OtherClaims "sub=7")).

(** an extractor that refuses every claim *)
Definition refuse_user : JWTUserExtractor := λ _, inr (ErrHTTP "no user in claims" 401).
Definition refuse_scopes : JWTScopesExtrator := λ _, inr (ErrHTTP "no scopes in claims" 403).

(** a context that carries a parsed token with map claims *)
Definition ctx_token : Context :=
  WithJWTClaims Background
    (IsToken {| Raw := "e30.e30."; TokenClaims := MapClaims {[ "scope" := "read" ]}; Valid := true |}).

(** endpoints that report the user and the scopes they were called with *)
Definition whoami : Endpoint (Request := string) (Response := option User) :=
  λ ctx _, inl (UserValue ctx).
Definition granted : Endpoint (Request := string) (Response := option (list string)) :=
  λ ctx _, inl (ScopesValue ctx).
End ExtractExamples.

Section ExtractFacts.
Import jennyhttp auth.
Context {Request Response : Type}.

(** C7: both extractions fail open. When the extractor, called on the claims
    of the context, returns an error, the context goes to the next stage as it
    came (so a user or scopes entry that was unset is still unset), and the
    stage returns what the next stage returns. *)
Theorem extraction_fails_open
    (claimsUser : JWTUserExtractor) (claimsScopes : JWTScopesExtrator)
    (next : Endpoint (Request := Request) (Response := Response))
    (ctx : Context) (request : Request) :
  (∀ claims, JWTClaims ctx = Some (IsClaims claims) → ∃ err, claimsUser claims = inr err) →
  (∀ token m, JWTClaims ctx = Some (IsToken token) → TokenClaims token = MapClaims m →
              ∃ err, claimsScopes m = inr err) →
  (user_ctx claimsUser ctx = ctx
   ∧ UserToContext claimsUser next ctx request = next ctx request)
  ∧ (scopes_ctx claimsScopes ctx = ctx
     ∧ ScopesToContext claimsScopes next ctx request = next ctx request).
Proof.
  intros Huser Hscopes.
  assert (user_ctx claimsUser ctx = ctx) as Hu.
  { unfold user_ctx. destruct (JWTClaims ctx) as [[token|claims]|] eqn:Hc; try done.
    destruct (Huser claims eq_refl) as [err ->]. done. }
  assert (scopes_ctx claimsScopes ctx = ctx) as Hs.
  { unfold scopes_ctx. destruct (JWTClaims ctx) as [[token|claims]|] eqn:Hc; try done.
    destruct (TokenClaims token) as [m|payload] eqn:Hm; [|done].
    destruct (Hscopes token m eq_refl Hm) as [err ->]. done. }
  unfold UserToContext, ScopesToContext. rewrite Hu, Hs. done.
Qed.

End ExtractFacts.

Lemma extraction_fails_open_witness :
  auth.UserToContext ExtractExamples.refuse_user ExtractExamples.whoami
    ExtractExamples.ctx_claims "request" = inl None
  ∧ auth.ScopesToContext ExtractExamples.refuse_scopes ExtractExamples.granted
      ExtractExamples.ctx_token "request" = inl None.
Proof.
  split.
  - refine (proj2 (proj1 (extraction_fails_open ExtractExamples.refuse_user
                            ExtractExamples.refuse_scopes ExtractExamples.whoami
                            ExtractExamples.ctx_claims "request" _ _))).
    + intros claims _. eexists. reflexivity.
    + intros token m H. discriminate H.
  - refine (proj2 (proj2 (extraction_fails_open ExtractExamples.refuse_user
                            ExtractExamples.refuse_scopes ExtractExamples.granted
                            ExtractExamples.ctx_token "request" _ _))).
    + intros claims H. discriminate H.
    + intros token m _ _. eexists. reflexivity.
Defined.


(** ** Resolving the decoder of a response *)

Module DecodeExamples.
Import mime decoders.

(** What [header.ParseAccept] returns on a header that is empty, or holds one
    media range without parameters: nothing, or that range at quality 1. *)
Definition parse_plain (s : string) : list AcceptSpec :=
  if bool_decide (s = "") then [] else [ {| Value := s; Q_ := 1 |} ].

Definition json_api_response : Message :=
  {| ContentType := "application/vnd.api+json"; Body := "{}" |}.

Definition json_xml_response : Message :=
  {| ContentType := "application/json+xml"; Body := "{}" |}.

Definition untyped_response : Message :=
  {| ContentType := ""; Body := "{}" |}.
End DecodeExamples.

Section DecodeFacts.
Import mime decoders.
Context `{R : GoRuntime}.
Variable ParseAccept : string → list AcceptSpec.

Lemma walk_loop_assign_some decoders body types c0 d0 :
  decoders !! c0 = Some d0 →
  ∃ c d, (c = c0 ∨ c ∈ spec_Type <$> types)
         ∧ decoders !! c = Some d
         ∧ (walk_loop (assign decoders body) types
              (Some {| constructor := d0; reader := body |})).1
           = Some {| constructor := d; reader := body |}.
Proof.
  revert c0 d0. induction types as [|t types IH]; intros c0 d0 H0; simpl.
  - exists c0, d0. auto.
  - unfold assign at 1. destruct (decoders !! spec_Type t) as [f|] eqn:Hf.
    + destruct (IH (spec_Type t) f Hf) as (c & d & Hc & Hd & Hw).
      exists c, d. split; [|done].
      right. destruct Hc as [->|Hc]; [apply list_elem_of_here | by apply list_elem_of_further].
    + exists c0, d0. auto.
Qed.

(** C9, as the code has it: the first candidate of the walk decides. With [c]
    the first candidate walked from the parsed Content-Type, [ResponseDecoder]
    fails with an error naming [c] when [c] has no decoder, and when [c] has one
    it returns, with no error, a decoder registered for one of the candidates. *)
Theorem ResponseDecoder_first_candidate
    (decoders : gmap string newDecoder) (r : Message) (c : string) (rest : list string) :
  Walk_types (NewTypes ParseAccept (ContentType r)) = c :: rest →
  (decoders !! c = None →
   ResponseDecoder ParseAccept decoders r = (None, Some (ErrNotRegisteredDecoder c)))
  ∧ (is_Some (decoders !! c) →
     ∃ c' d, c' ∈ c :: rest
             ∧ decoders !! c' = Some d
             ∧ ResponseDecoder ParseAccept decoders r
               = (Some {| constructor := d; reader := Body r |}, None)).
Proof.
  intros Hwalk. unfold ResponseDecoder, Walk.
  unfold Walk_types in Hwalk.
  destruct (sorted_specs (NewTypes ParseAccept (ContentType r))) as [|s ss]; [done|].
  injection Hwalk as Hc Hrest. cbn [walk_loop]. subst c rest. split.
  - intros Hnone. unfold assign at 1. by rewrite Hnone.
  - intros [d0 Hd0]. unfold assign at 1. rewrite Hd0.
    destruct (walk_loop_assign_some decoders (Body r) ss _ d0 Hd0) as (c' & d & Hc' & Hd & Hw).
    exists c', d. split; [|split; [done|]].
    + destruct Hc' as [->|Hc']; [apply list_elem_of_here | by apply list_elem_of_further].
    + destruct (walk_loop _ ss _) as [dec err]. simpl in Hw. by rewrite Hw.
Qed.

End DecodeFacts.

Lemma ResponseDecoder_first_candidate_witness :
  decoders.ResponseDecoder (R := runtime_fwd) DecodeExamples.parse_plain decoders.registry0
    {| decoders.ContentType := "text/csv"; decoders.Body := "a,b" |}
  = (None, Some (ErrNotRegisteredDecoder "text/csv")).
Proof.
  refine (proj1 (ResponseDecoder_first_candidate (R := runtime_fwd) DecodeExamples.parse_plain
                   decoders.registry0 _ "text/csv" [] _) _).
  - vm_compute. reflexivity.
  - vm_compute. reflexivity.
Defined.

(** C9 as stated fails three ways. [Content-Type: application/vnd.api+json]
    yields the candidates [application/vnd.api] and [application/json]; the
    second has a decoder, yet the call fails on the first. An empty Content-Type
    yields no candidate, and the call returns neither a decoder nor an error.
    [Content-Type: application/json+xml] yields [application/xml] and
    [application/json], both with a decoder, and the call returns the decoder of
    the second. *)
Lemma ResponseDecoder_misses_registered_decoder :
  (mime.Walk_types (R := runtime_fwd)
     (decoders.NewTypes DecodeExamples.parse_plain "application/vnd.api+json")
   = ["application/vnd.api"; "application/json"]
   ∧ decoders.registry0 !! "application/json" = Some decoders.JSONDecoder
   ∧ decoders.ResponseDecoder (R := runtime_fwd) DecodeExamples.parse_plain decoders.registry0
       DecodeExamples.json_api_response
     = (None, Some (ErrNotRegisteredDecoder "application/vnd.api")))
  ∧ decoders.ResponseDecoder (R := runtime_fwd) DecodeExamples.parse_plain decoders.registry0
      DecodeExamples.untyped_response
    = (None, None)
  ∧ (mime.Walk_types (R := runtime_fwd)
       (decoders.NewTypes DecodeExamples.parse_plain "application/json+xml")
     = ["application/xml"; "application/json"]
     ∧ decoders.registry0 !! "application/xml" = Some decoders.XMLDecoder
     ∧ decoders.ResponseDecoder (R := runtime_fwd) DecodeExamples.parse_plain decoders.registry0
         DecodeExamples.json_xml_response
       = (Some {| decoders.constructor := decoders.JSONDecoder; decoders.reader := "{}" |},
          None)).
Proof. vm_compute. auto 10. Qed.


(** ** The order of a walk *)

Module WalkExamples.
Import mime.

(** [Accept: application/json, text/plain;q=0.5] *)
Definition json_over_plain : Types :=
  RequestTypes [ {| Value := "application/json"; Q_ := 1 |};
                 {| Value := "text/plain"; Q_ := 1 # 2 |} ].

(** two entries of equal weight whose groups and subtypes compare opposite ways *)
Definition crossed : Types :=
  RequestTypes [ {| Value := "a/z"; Q_ := 1 |}; {| Value := "b/a"; Q_ := 1 |} ].
End WalkExamples.

Section WalkOrderFacts.
Import mime.
Context `{R : GoRuntime} {RS : GoRuntimeSpec R}.

Lemma elem_of_range {V : Type} (m : gmap string V) (k : string) (v : V) :
  (k, v) ∈ range m ↔ m !! k = Some v.
Proof. rewrite range_perm. apply elem_of_map_to_list. Qed.

Lemma NoDup_range {V : Type} (m : gmap string V) : NoDup (range m).
Proof. rewrite range_perm. apply NoDup_map_to_list. Qed.

Lemma elem_of_collect (t : Types) (s : mimeSpec) :
  s ∈ collect t ↔ get_weight t (typ s) (subTyp s) = Some (q s).
Proof.
  unfold collect, get_weight. rewrite list_elem_of_In, in_flat_map. split.
  - intros ([g subs] & Hg & Hs).
    apply list_elem_of_In, elem_of_range in Hg.
    apply list_elem_of_In, list_elem_of_fmap in Hs as ([sub w] & -> & Hw).
    apply elem_of_range in Hw. simpl. by rewrite Hg.
  - destruct (t !! typ s) as [subs|] eqn:Hg; simpl; [|done].
    intros Hw. exists (typ s, subs). split.
    + by apply list_elem_of_In, elem_of_range.
    + apply list_elem_of_In, list_elem_of_fmap. exists (subTyp s, q s).
      split; [by destruct s | by apply elem_of_range].
Qed.

Lemma NoDup_collect (t : Types) : NoDup (collect t).
Proof.
  unfold collect.
  change (NoDup (range t ≫=
    (λ '(typ, subTyps),
       (λ '(subTyp, q), {| typ := typ; subTyp := subTyp; q := q |}) <$> range subTyps))).
  apply NoDup_bind; [| |apply NoDup_range].
  - intros [g1 subs1] [g2 subs2] s H1 H2 Hs1 Hs2.
    apply elem_of_range in H1, H2.
    apply list_elem_of_fmap in Hs1 as ([sub1 w1] & -> & _).
    apply list_elem_of_fmap in Hs2 as ([sub2 w2] & [= -> _ _] & _).
    congruence.
  - intros [g subs] _. apply NoDup_fmap_2_strong; [|apply NoDup_range].
    intros [sub1 w1] [sub2 w2] _ _ [= -> ->]. done.
Qed.

(** The part of C4 that holds: a walk visits the entries of the graph, each
    exactly once. *)
Lemma Walk_visits_each_entry_once (t : Types) :
  NoDup (sorted_specs t)
  ∧ ∀ s, s ∈ sorted_specs t ↔ get_weight t (typ s) (subTyp s) = Some (q s).
Proof.
  unfold sorted_specs. split.
  - rewrite sort_Slice_perm. apply NoDup_collect.
  - intros s. rewrite sort_Slice_perm. apply elem_of_collect.
Qed.

End WalkOrderFacts.

(** C4 fails on the code: [less] also answers true for a pair whose first
    weight is the lower one, as soon as the names compare upwards. For
    [Accept: application/json, text/plain;q=0.5], ranged in the order
    [application], [text], the walk yields [text/plain] (weight 1/2) before
    [application/json] (weight 1); ranged the other way round it yields the
    opposite. For equal weights and names that compare opposite ways, [less] is
    false both ways and the walk keeps the order of the [range]. *)
Lemma Walk_lower_weight_first :
  (mime.collect (R := runtime_fwd) WalkExamples.json_over_plain
   = [ {| mime.typ := "application"; mime.subTyp := "json"; mime.q := 1 |};
       {| mime.typ := "text"; mime.subTyp := "plain"; mime.q := 1 # 2 |} ]
   ∧ mime.sorted_specs (R := runtime_fwd) WalkExamples.json_over_plain
     = [ {| mime.typ := "text"; mime.subTyp := "plain"; mime.q := 1 # 2 |};
         {| mime.typ := "application"; mime.subTyp := "json"; mime.q := 1 |} ]
   ∧ mime.Walk_types (R := runtime_bwd) WalkExamples.json_over_plain
     = ["application/json"; "text/plain"])
  ∧ (mime.Walk_types (R := runtime_fwd) WalkExamples.crossed = ["a/z"; "b/a"]
     ∧ mime.Walk_types (R := runtime_bwd) WalkExamples.crossed = ["b/a"; "a/z"]).
Proof. vm_compute. auto. Qed.

(** ** Intersecting two graphs *)

Module IntersectExamples.
Import mime.

(** the server offers [text/plain]; the client sends [Accept: text/*;q=0.8] *)
Definition offers_plain : Types := Aggregate ["text/plain"].
Definition accepts_any_text : Types := RequestTypes [ {| Value := "text/*"; Q_ := 4 # 5 |} ].
End IntersectExamples.

Section IntersectFacts.
Import mime.
Context `{R : GoRuntime} {RS : GoRuntimeSpec R}.

Lemma get_weight_set_weight (g : Types) (group sub : string) (w : Q) (group' sub' : string) :
  get_weight (set_weight g group sub w) group' sub'
  = if decide (group' = group ∧ sub' = sub) then Some w else get_weight g group' sub'.
Proof.
  unfold get_weight, set_weight.
  destruct (decide (group' = group)) as [->|Hg].
  - rewrite lookup_insert_eq. simpl.
    destruct (decide (sub' = sub)) as [->|Hs].
    + rewrite lookup_insert_eq. by rewrite decide_True.
    + rewrite lookup_insert_ne by done. rewrite decide_False by (intros [_ ?]; done).
      by destruct (g !! group).
  - rewrite lookup_insert_ne by done. by rewrite decide_False by (intros [? _]; done).
Qed.

(** the weight [select] gives a pair that it keeps: that of the exact entry,
    or the zero value *)
Definition kept (bgroup : gmap string Q) (subgroup : string) : option Q :=
  match bgroup !! subgroup with
  | Some w => Some w
  | None => if bool_decide (is_Some (bgroup !! wildcard)) then Some 0%Q else None
  end.

(** one round of the inner loop of [select], and the loop *)
Definition keep_pair (bgroup : gmap string Q) (group : string) (g : Types)
    (entry : string * Q) : Types :=
  let found := bgroup !! entry.1 in
  if bool_decide (is_Some found) || bool_decide (is_Some (bgroup !! wildcard))
  then set_weight g group entry.1 (default 0%Q found)
  else g.

Lemma keep_pair_lookup bgroup group g sub w group' sub' :
  get_weight (keep_pair bgroup group g (sub, w)) group' sub'
  = if decide (group' = group ∧ sub' = sub ∧ is_Some (kept bgroup sub'))
    then kept bgroup sub' else get_weight g group' sub'.
Proof.
  unfold keep_pair, kept. simpl.
  destruct (decide (group' = group ∧ sub' = sub ∧ _)) as [(-> & -> & Hk)|Hno].
  - destruct (bgroup !! sub) as [wb|]; simpl.
    + by rewrite get_weight_set_weight, decide_True.
    + destruct (bool_decide (is_Some (bgroup !! wildcard))); simpl.
      * by rewrite get_weight_set_weight, decide_True.
      * by destruct Hk.
  - destruct (bool_decide (is_Some (bgroup !! sub)) || _) eqn:Hcond; [|done].
    rewrite get_weight_set_weight.
    destruct (decide (group' = group ∧ sub' = sub)) as [[-> ->]|]; [|done].
    exfalso. apply Hno. split; [done|]. split; [done|].
    destruct (bgroup !! sub); simpl in *; [eauto|]. rewrite Hcond. eauto.
Qed.

Lemma select_group_lookup bgroup group l g group' sub' :
  get_weight (foldl (keep_pair bgroup group) g l) group' sub'
  = if decide (group' = group ∧ sub' ∈ l.*1 ∧ is_Some (kept bgroup sub'))
    then kept bgroup sub' else get_weight g group' sub'.
Proof.
  revert g. induction l as [|[sub w] l IH]; intros g; cbn [foldl].
  - rewrite decide_False; [done|]. intros (_ & H & _). by apply not_elem_of_nil in H.
  - rewrite IH, keep_pair_lookup. clear IH.
    destruct (decide (group' = group ∧ sub' ∈ l.*1 ∧ is_Some (kept bgroup sub')))
      as [(Hg & Hin & Hk)|Hno].
    + rewrite decide_True; [done|]. split; [done|]. split; [|done].
      simpl. by apply list_elem_of_further.
    + destruct (decide (group' = group ∧ sub' = sub ∧ is_Some (kept bgroup sub')))
        as [(Hg & Hs & Hk)|Hno'].
      * rewrite decide_True; [done|]. split; [done|]. split; [|done].
        rewrite Hs. apply list_elem_of_here.
      * rewrite decide_False; [done|]. intros (Hg & Hin & Hk). simpl in Hin.
        apply elem_of_cons in Hin as [Hs|Hin]; [by apply Hno' | by apply Hno].
Qed.

(** one round of the outer loop *)
Definition keep_group (b : Types) (g : Types) (entry : string * gmap string Q) : Types :=
  match b !! entry.1 with
  | None => g
  | Some bgroup => foldl (keep_pair bgroup entry.1) g (range entry.2)
  end.

Lemma foldl_ext_all {A B : Type} (f1 f2 : A → B → A) (l : list B) (a : A) :
  (∀ a x, f1 a x = f2 a x) → foldl f1 a l = foldl f2 a l.
Proof.
  intros Hf. revert a. induction l as [|x l IH]; intros a; simpl; [done|].
  by rewrite Hf, IH.
Qed.

Lemma select_unfold (a b : Types) : select a b = foldl (keep_group b) ∅ (range a).
Proof.
  unfold select. apply foldl_ext_all. intros g [group subgroups].
  unfold keep_group. simpl. destruct (b !! group) as [bgroup|]; [|done].
  apply foldl_ext_all. intros g' [sub w]. done.
Qed.

(** the weight of a pair of [a] in [select a b] *)
Definition selected (b : Types) (group sub : string) : option Q :=
  b !! group ≫= λ bgroup, kept bgroup sub.

Lemma keep_group_lookup b g group subs group' sub' :
  get_weight (keep_group b g (group, subs)) group' sub'
  = if decide (group' = group ∧ is_Some (subs !! sub') ∧ is_Some (selected b group' sub'))
    then selected b group' sub' else get_weight g group' sub'.
Proof.
  unfold keep_group, selected. simpl.
  destruct (decide (group' = group)) as [->|Hg].
  - destruct (b !! group) as [bgroup|]; simpl.
    + rewrite select_group_lookup.
      destruct (decide (group = group ∧ sub' ∈ (range subs).*1 ∧ _)) as [(_ & Hin & Hk)|Hno].
      * rewrite decide_True; [done|]. split; [done|]. split; [|done].
        apply list_elem_of_fmap in Hin as ([s w] & -> & Hin). apply elem_of_range in Hin. eauto.
      * rewrite decide_False; [done|]. intros (_ & [w Hw] & Hk). apply Hno.
        split; [done|]. split; [|done].
        apply list_elem_of_fmap. exists (sub', w). split; [done | by apply elem_of_range].
    + rewrite decide_False; [done|]. intros (_ & _ & [? ?]). done.
  - rewrite decide_False by (intros [? _]; done).
    destruct (b !! group) as [bgroup|]; [|done].
    rewrite select_group_lookup. by rewrite decide_False by (intros [? _]; done).
Qed.

Lemma foldl_keep_group_lookup b l g group' sub' :
  get_weight (foldl (keep_group b) g l) group' sub'
  = if decide (Exists (λ e, group' = e.1 ∧ is_Some (e.2 !! sub')) l
               ∧ is_Some (selected b group' sub'))
    then selected b group' sub' else get_weight g group' sub'.
Proof.
  revert g. induction l as [|[group subs] l IH]; intros g; cbn [foldl].
  - rewrite decide_False; [done|]. intros [H _]. by apply Exists_nil in H.
  - rewrite IH, keep_group_lookup. clear IH.
    destruct (decide (Exists _ l ∧ _)) as [[Hex Hsel]|Hno].
    + rewrite decide_True; [done|]. split; [by apply Exists_cons_tl | done].
    + destruct (decide (group' = group ∧ _ ∧ _)) as [(Hg & Hs & Hsel)|Hno'].
      * rewrite decide_True; [done|]. split; [|done]. by apply Exists_cons_hd.
      * rewrite decide_False; [done|]. intros [Hex Hsel].
        apply Exists_cons in Hex as [[Hg Hs]|Hex]; [by apply Hno' | by apply Hno].
Qed.

(** [select] keeps the pairs of [a] that [b] holds exactly or under the
    wildcard of their group, with the weight [selected] *)
Lemma select_lookup (a b : Types) (group sub : string) :
  get_weight (select a b) group sub
  = if decide (is_Some (get_weight a group sub)) then selected b group sub else None.
Proof.
  rewrite select_unfold, foldl_keep_group_lookup.
  assert (Exists (λ e : string * gmap string Q, group = e.1 ∧ is_Some (e.2 !! sub)) (range a)
          ↔ is_Some (get_weight a group sub)) as Hex.
  { rewrite Exists_exists. unfold get_weight. split.
    - intros ([g subs] & Hin & Hg & Hs). simpl in *. subst g.
      apply elem_of_range in Hin. by rewrite Hin.
    - destruct (a !! group) as [subs|] eqn:Ha; simpl; [|by intros [? ?]].
      intros Hs. exists (group, subs). split; [by apply elem_of_range | done]. }
  destruct (decide (is_Some (get_weight a group sub))) as [Hin|Hout].
  - destruct (selected b group sub) as [w|] eqn:Hsel.
    + rewrite decide_True; [done|]. split; [by apply Hex | eauto].
    + by destruct (decide _).
  - rewrite decide_False; [done|]. intros [H _]. by apply Hout, Hex.
Qed.

(** The parts of C3 that hold, and the one that does not: a pair of the server
    graph is in the result exactly when the client graph, after the expansion,
    holds it exactly or holds the wildcard of its group; its weight is that of
    the exact entry when there is one, and 0 otherwise. *)
Lemma Intersect_lookup (a b : Types) (group sub : string) :
  get_weight (Intersect a b).1 group sub
  = if decide (is_Some (get_weight a group sub))
    then selected (expand a b) group sub else None.
Proof. unfold Intersect. simpl. apply select_lookup. Qed.

End IntersectFacts.

(** *** Names that survive the formatting of a walk *)

Section Names.
Import GoStrings mime.

Fixpoint slashless (s : string) : bool :=
  match s with
  | EmptyString => true
  | String c rest => negb (is_char c slash) && slashless rest
  end.

Lemma path_Split_slashless (s : string) : slashless s = true → path_Split s = ("", s).
Proof.
  induction s as [|c s IH]; simpl; [done|].
  intros [Hc Hs]%andb_true_iff. rewrite (IH Hs).
  by destruct (is_char c slash).
Qed.

Lemma path_Split_join (g s : string) :
  slashless s = true → path_Split (g +:+ "/" +:+ s) = (g +:+ "/", s).
Proof.
  intros Hs. induction g as [|c g IH].
  - change ("" +:+ "/" +:+ s) with (String "/" s).
    cbn [path_Split]. by rewrite (path_Split_slashless s Hs).
  - change (String c g +:+ "/" +:+ s) with (String c (g +:+ "/" +:+ s)).
    cbn [path_Split]. rewrite IH. by destruct g.
Qed.

Lemma TrimRight_slash_snoc (g : string) : TrimRight_slash (g +:+ "/") = TrimRight_slash g.
Proof.
  induction g as [|c g IH]; [done|].
  change (String c g +:+ "/") with (String c (g +:+ "/")).
  cbn [TrimRight_slash]. by rewrite IH.
Qed.

Lemma TrimLeft_slash_length (s : string) :
  (String.length (TrimLeft_slash s) ≤ String.length s)%nat.
Proof.
  induction s as [|c s IH]; simpl; [done|].
  destruct (is_char c slash); simpl; lia.
Qed.

Lemma TrimRight_slash_length (s : string) :
  (String.length (TrimRight_slash s) ≤ String.length s)%nat.
Proof.
  induction s as [|c s IH]; simpl; [done|].
  destruct (TrimRight_slash s); [destruct (is_char c slash)|]; simpl in *; lia.
Qed.

Lemma Trim_slash_join (g : string) : Trim_slash g = g → Trim_slash (g +:+ "/") = g.
Proof.
  unfold Trim_slash. destruct g as [|c g]; [done|]. intros Htrim.
  change (String c g +:+ "/") with (String c (g +:+ "/")).
  cbn [TrimLeft_slash] in *. destruct (is_char c slash).
  - exfalso.
    pose proof (TrimRight_slash_length (TrimLeft_slash g)) as H1.
    pose proof (TrimLeft_slash_length g) as H2.
    rewrite Htrim in H1. simpl in H1. lia.
  - change (String c (g +:+ "/")) with (String c g +:+ "/").
    by rewrite TrimRight_slash_snoc.
Qed.

(** a group and a subtype that [Walk] formats and [Group], [SubGroup] take apart again *)
Lemma Group_SubGroup_join (g s : string) :
  Trim_slash g = g → slashless s = true →
  Group (Sprintf_slash g s) = g ∧ SubGroup (Sprintf_slash g s) = s.
Proof.
  intros Hg Hs. unfold Group, SubGroup, Sprintf_slash.
  rewrite (path_Split_join g s Hs). simpl. by rewrite Trim_slash_join.
Qed.

Lemma TrimLeft_slash_head (c : ascii) (s : string) :
  TrimLeft_slash (String c s) = String c s → is_char c slash = false.
Proof.
  cbn [TrimLeft_slash]. destruct (is_char c slash); [|done].
  intros H. pose proof (TrimLeft_slash_length s) as Hlen.
  rewrite H in Hlen. simpl in Hlen. lia.
Qed.

Lemma TrimLeft_slash_idemp (s : string) : TrimLeft_slash (TrimLeft_slash s) = TrimLeft_slash s.
Proof.
  induction s as [|c s IH]; [done|]. cbn [TrimLeft_slash].
  destruct (is_char c slash) eqn:Hc; [done|]. cbn [TrimLeft_slash]. by rewrite Hc.
Qed.

Lemma TrimRight_slash_idemp (s : string) : TrimRight_slash (TrimRight_slash s) = TrimRight_slash s.
Proof.
  induction s as [|c s IH]; [done|]. cbn [TrimRight_slash].
  destruct (TrimRight_slash s) as [|d r] eqn:Hr.
  - destruct (is_char c slash) eqn:Hc; [done|]. cbn [TrimRight_slash]. by rewrite Hc.
  - cbn [TrimRight_slash] in *. by rewrite IH.
Qed.

Lemma TrimLeft_TrimRight_slash (s : string) :
  TrimLeft_slash s = s → TrimLeft_slash (TrimRight_slash s) = TrimRight_slash s.
Proof.
  destruct s as [|c s]; [done|]. intros Hc%TrimLeft_slash_head.
  cbn [TrimRight_slash]. destruct (TrimRight_slash s); rewrite ?Hc; cbn [TrimLeft_slash];
    by rewrite Hc.
Qed.

Lemma Trim_slash_idemp (s : string) : Trim_slash (Trim_slash s) = Trim_slash s.
Proof.
  unfold Trim_slash.
  rewrite (TrimLeft_TrimRight_slash _ (TrimLeft_slash_idemp s)).
  apply TrimRight_slash_idemp.
Qed.

Lemma path_Split_file_slashless (p : string) : slashless (path_Split p).2 = true.
Proof.
  induction p as [|c p IH]; [done|]. cbn [path_Split].
  destruct (path_Split p) as [dir file]. simpl in IH.
  destruct dir; [|done]. destruct (is_char c slash) eqn:Hc; simpl; [done|].
  by rewrite Hc, IH.
Qed.

Lemma Split_plus_slashless (s : string) :
  slashless s = true → Forall (λ piece, slashless piece = true) (Split_plus s).
Proof.
  induction s as [|c s IH]; simpl.
  - intros _. by apply Forall_singleton.
  - intros [Hc Hs]%andb_true_iff. specialize (IH Hs).
    destruct (is_char c plus); [by apply Forall_cons|].
    destruct (Split_plus s) as [|piece pieces];
      [apply Forall_singleton; simpl; by rewrite Hc|].
    apply Forall_cons in IH as [Hp Hps]. apply Forall_cons. split; [|done].
    simpl. by rewrite Hc, Hp.
Qed.

End Names.

Section ExpandFacts.
Import mime.
Context `{R : GoRuntime} {RS : GoRuntimeSpec R}.

Lemma walk_loop_total {S : Type} (f : string → S → S) (types : list mimeSpec) (st : S) :
  walk_loop (λ m st, (f m st, None)) types st
  = (foldl (λ st t, f (spec_Type t) st) st types, None).
Proof. revert st. induction types as [|t types IH]; intros st; simpl; [done | apply IH]. Qed.

Lemma foldl_set_weight_lookup (q : Q) (types : list mimeSpec) (b : Types) (g s : string) :
  get_weight (foldl (λ b t, set_weight b (Group (spec_Type t)) (SubGroup (spec_Type t)) q)
                b types) g s
  = if decide (Exists (λ t, g = Group (spec_Type t) ∧ s = SubGroup (spec_Type t)) types)
    then Some q else get_weight b g s.
Proof.
  revert b. induction types as [|t types IH]; intros b; cbn [foldl].
  - rewrite decide_False; [done|]. intros H. by apply Exists_nil in H.
  - rewrite IH, get_weight_set_weight. clear IH.
    destruct (decide (Exists _ types)) as [Hex|Hno].
    + rewrite decide_True; [done | by apply Exists_cons_tl].
    + destruct (decide (g = _ ∧ s = _)) as [Hhere|Hno'].
      * rewrite decide_True; [done | by apply Exists_cons_hd].
      * rewrite decide_False; [done|].
        intros [Hhere|Hex]%Exists_cons; [by apply Hno' | by apply Hno].
Qed.

(** The expansion that C3 describes: when the client graph holds [*/*] at weight
    [q], every entry of the server graph whose names survive the formatting is
    written into the client graph at weight [q], over what was there. *)
Lemma expand_copies_entry (a b : Types) (x : gmap string Q) (q w : Q) (g s : string) :
  b !! wildcard = Some x → x !! wildcard = Some q →
  get_weight a g s = Some w →
  GoStrings.Trim_slash g = g → slashless s = true →
  get_weight (expand a b) g s = Some q.
Proof.
  intros Hb Hx Ha Hg Hs. unfold expand, Walk. rewrite Hb, Hx.
  rewrite (walk_loop_total (λ m b, set_weight b (Group m) (SubGroup m) q)). simpl.
  rewrite foldl_set_weight_lookup, decide_True; [done|].
  apply Exists_exists. exists {| typ := g; subTyp := s; q := w |}. split.
  - by apply Walk_visits_each_entry_once.
  - unfold spec_Type. simpl. by destruct (Group_SubGroup_join g s Hg Hs) as [-> ->].
Qed.

(** the names in a graph built by [Aggregate] survive the formatting *)
Lemma add_exploded_names (g : Types) (v : string) (q : Q) :
  (∀ group sub w, get_weight g group sub = Some w →
                  GoStrings.Trim_slash group = group ∧ slashless sub = true) →
  ∀ group sub w, get_weight (add_exploded g v q) group sub = Some w →
                 GoStrings.Trim_slash group = group ∧ slashless sub = true.
Proof.
  unfold add_exploded. pose proof (path_Split_file_slashless v) as Hfile.
  destruct (GoStrings.path_Split v) as [dir file]. simpl in Hfile.
  apply Split_plus_slashless in Hfile. revert g.
  induction Hfile as [|piece pieces Hpiece _ IH]; intros g Hg; cbn [foldl]; [done|].
  apply IH. intros group sub w. rewrite get_weight_set_weight.
  destruct (decide _) as [[-> ->]|]; [|by apply Hg].
  intros _. split; [apply Trim_slash_idemp | done].
Qed.

Lemma Aggregate_names (list : list string) (group sub : string) (w : Q) :
  get_weight (Aggregate list) group sub = Some w →
  GoStrings.Trim_slash group = group ∧ slashless sub = true.
Proof.
  unfold Aggregate.
  assert (∀ g : Types,
            (∀ group sub w, get_weight g group sub = Some w →
                            GoStrings.Trim_slash group = group ∧ slashless sub = true) →
            ∀ group sub w,
              get_weight (foldl (λ g s, add_exploded g s 1%Q) g list) group sub = Some w →
              GoStrings.Trim_slash group = group ∧ slashless sub = true) as H.
  { induction list as [|s list IH]; intros g Hg; cbn [foldl]; [done|].
    apply IH. by apply add_exploded_names. }
  apply H. intros group' sub' w'. unfold get_weight. by rewrite lookup_empty.
Qed.

(** The first part of C3, for the graph of a server: under a client's [*/*] at
    weight [q] every type the server offers is in the result, at weight [q]. *)
Lemma Intersect_under_global_wildcard
    (list : list string) (b : Types) (x : gmap string Q) (q w : Q) (group sub : string) :
  b !! wildcard = Some x → x !! wildcard = Some q →
  get_weight (Aggregate list) group sub = Some w →
  get_weight (Intersect (Aggregate list) b).1 group sub = Some q.
Proof.
  intros Hb Hx Ha. rewrite Intersect_lookup, decide_True by (by rewrite Ha).
  destruct (Aggregate_names list group sub w Ha) as [Hg Hs].
  pose proof (expand_copies_entry _ b x q w group sub Hb Hx Ha Hg Hs) as Hcopy.
  unfold selected, get_weight, kept in *.
  destruct (expand (Aggregate list) b !! group) as [bgroup|]; simpl in *; [|done].
  by rewrite Hcopy.
Qed.

End ExpandFacts.

(** C3 fails on the code: a pair matched by the group's wildcard alone gets
    weight 0, the zero value of the failed lookup, not the wildcard's weight. *)
Lemma Intersect_wildcard_match_weighs_zero :
  mime.get_weight IntersectExamples.accepts_any_text "text" "*" = Some (4 # 5)
  ∧ mime.get_weight IntersectExamples.accepts_any_text "text" "plain" = None
  ∧ mime.get_weight
      (mime.Intersect (R := runtime_fwd) IntersectExamples.offers_plain
         IntersectExamples.accepts_any_text).1 "text" "plain"
    = Some 0%Q.
Proof. vm_compute. auto. Qed.


(** ** The pipeline of an operation *)

Section PipelineFacts.
Import options.
Context {Endpoint Tracer Reporter Keyfunc SigningMethod ClaimsFactory UserExtractor ScopesExtractor : Type}.
Context {S : Stages (Endpoint := Endpoint) (Tracer := Tracer) (Reporter := Reporter)
               (Keyfunc := Keyfunc) (SigningMethod := SigningMethod)
               (ClaimsFactory := ClaimsFactory) (UserExtractor := UserExtractor)
               (ScopesExtractor := ScopesExtractor)}.

Abbreviation Mw := (Middleware (Endpoint := Endpoint)).
Abbreviation Opts := (Options (Tracer := Tracer) (Reporter := Reporter) (Keyfunc := Keyfunc)
                        (SigningMethod := SigningMethod) (ClaimsFactory := ClaimsFactory)
                        (UserExtractor := UserExtractor) (ScopesExtractor := ScopesExtractor)).

(** the stages of a list run inbound from its head to its last element *)
Definition inbound (stages : list Mw) : Mw :=
  λ next, foldr (λ stage next, stage next) next stages.

(** the stages [OpMiddlewares] adds, in the order in which they come off the stack *)
Definition pushed_stages (m : Opts) (operation : string) : list Mw :=
  [ErrorReporter (errorReporter m) operation; TraceClient (tracer m) operation]
  ++ match kf m, sm m, cf m with
     | Some k, Some s, Some c => [JWTToContext k s c]
     | _, _, _ => []
     end
  ++ match userFunc m with Some f => [UserToContext f] | None => [] end
  ++ match scopesFunc m with Some f => [ScopesToContext f] | None => [] end.

Lemma push_lookup (st : nat) (v : Mw) (l : list Mw) (h : gmap nat (list Mw)) :
  h !! st = Some l → push st v h = <[st := v :: l]> h.
Proof. intros H. unfold push, stack.Push. by rewrite H. Qed.

Lemma push_insert (st : nat) (v : Mw) (l : list Mw) (h : gmap nat (list Mw)) :
  push st v (<[st := l]> h) = <[st := v :: l]> h.
Proof. unfold push, stack.Push. by rewrite lookup_insert_eq, insert_insert_eq. Qed.

Lemma chain_loop_pops_all (l : list Mw) (mware : Mw) (st : nat) (h : gmap nat (list Mw)) :
  ∃ mw, chain_loop (length l) mware st (<[st := l]> h) = Some (mw, <[st := []]> h)
        ∧ ∀ next, mw next = mware (inbound l next).
Proof.
  revert mware h. induction l as [|v l IH]; intros mware h; simpl.
  - exists mware. done.
  - unfold pop, stack.Pop. rewrite lookup_insert_eq. simpl. rewrite insert_insert_eq.
    destruct (IH (Chain mware [v]) h) as (mw & -> & Hmw).
    exists mw. split; [done|]. intros next. by rewrite Hmw.
Qed.

(** after the pushes: pop the first stage, then run the loop to the bottom *)
Ltac pop_to_the_bottom st h :=
  rewrite ?push_insert;
  unfold pop, len, stack.Pop, stack.Len; rewrite lookup_insert_eq;
  cbn [default from_option id]; rewrite insert_insert_eq, lookup_insert_eq;
  cbn [default from_option id];
  match goal with
  | |- context [chain_loop ?n ?mw st (<[st := ?l]> h)] =>
      let mw' := fresh "mw" in
      let Hloop := fresh "Hloop" in
      let Hmw := fresh "Hmw" in
      destruct (chain_loop_pops_all l mw st h) as (mw' & Hloop & Hmw);
      change (chain_loop n mw st (<[st := l]> h) = Some (mw', <[st := []]> h)) in Hloop;
      rewrite Hloop; exists mw'; split; [done|]; intros next;
      rewrite Hmw; reflexivity
  end.

Lemma OpMiddlewares_on_stack (m : Opts) (operation : string) (st : nat)
    (extras : list Mw) (h : gmap nat (list Mw)) :
  middlewares m !! operation = Some st →
  ∃ mw, OpMiddlewares m operation (<[st := extras]> h) = Some (mw, <[st := []]> h)
        ∧ ∀ next, mw next = inbound (pushed_stages m operation ++ extras) next.
Proof.
  intros Hop. unfold OpMiddlewares, pushed_stages. rewrite Hop.
  destruct (scopesFunc m) as [fs|], (userFunc m) as [fu|],
           (kf m) as [k|], (sm m) as [s|], (cf m) as [c|];
    pop_to_the_bottom st h.
Qed.

(** an operation without registered middlewares gets the pushed stages alone,
    from a stack of its own that the table never sees *)
Lemma OpMiddlewares_unregistered (m : Opts) (operation : string) (h : gmap nat (list Mw)) :
  middlewares m !! operation = None →
  ∃ mw, OpMiddlewares m operation h = Some (mw, <[fresh (dom h) := []]> h)
        ∧ ∀ next, mw next = inbound (pushed_stages m operation) next.
Proof.
  intros Hop. unfold OpMiddlewares, pushed_stages, stack.New. rewrite Hop.
  set (st := fresh (dom h)).
  destruct (scopesFunc m) as [fs|], (userFunc m) as [fu|],
           (kf m) as [k|], (sm m) as [s|], (cf m) as [c|];
    pop_to_the_bottom st h.
Qed.

(** What [OpMiddlewares] composes for an operation with registered middlewares:
    the two fixed stages with the error reporter outermost, the optional
    stages, then the registered stack from its top, that is, the extras from
    the last registered to the first; and the stack is left empty. *)
Lemma OpMiddlewares_registered (m : Opts) (operation : string) (st : nat)
    (extras : list Mw) (h : gmap nat (list Mw)) :
  middlewares m !! operation = Some st →
  h !! st = Some extras →
  ∃ mw, OpMiddlewares m operation h = Some (mw, <[st := []]> h)
        ∧ ∀ next, mw next = inbound (pushed_stages m operation ++ extras) next.
Proof.
  intros Hop Hst.
  destruct (OpMiddlewares_on_stack m operation st extras h Hop) as (mw & Hmw & Hrun).
  rewrite (insert_id h st extras Hst) in Hmw. eauto.
Qed.

(** registering on a fresh table: the stack holds the extras, last registered on top *)
Lemma RegisterMiddleware_fresh (m : Opts) (op : string) (mws : list Mw)
    (h : gmap nat (list Mw)) :
  middlewares m !! op = None →
  let st := fresh (dom h) in
  RegisterMiddleware m op mws h
  = (with_middlewares m (<[op := st]> (middlewares m)), <[st := reverse mws]> h).
Proof.
  intros Hop st. unfold RegisterMiddleware. rewrite Hop. fold st. f_equal.
  assert (∀ l, foldl (λ h mw, push st mw h) (<[st := l]> h) mws
               = <[st := (reverse mws ++ l)%list]> h) as Hfold.
  { induction mws as [|mw mws IH]; intros l; simpl; [done|].
    rewrite push_insert, IH, reverse_cons, <- app_assoc. done. }
  unfold stack.New. rewrite (Hfold []). by rewrite app_nil_r.
Qed.

End PipelineFacts.

(** An ordered marker log: an endpoint receives the log of the stages run so
    far and returns the log as it is when the call returns; a marking stage
    appends its name on the way in. *)
Module PipelineExamples.
Import options.

Definition Endpoint : Type := list string → list string.

Definition mark (name : string) : Middleware (Endpoint := Endpoint) :=
  λ next log, next (log ++ [name])%list.

Definition handler : Endpoint := λ log, (log ++ ["handler"])%list.

Definition marking : Stages (Endpoint := Endpoint) (Tracer := unit) (Reporter := unit)
                       (Keyfunc := unit) (SigningMethod := unit) (ClaimsFactory := unit)
                       (UserExtractor := unit) (ScopesExtractor := unit) :=
  {| TraceClient := λ _ _, mark "tracing";
     ErrorReporter := λ _ _, mark "error-reporting";
     JWTToContext := λ _ _ _, mark "jwt";
     UserToContext := λ _, mark "user";
     ScopesToContext := λ _, mark "scopes" |}.

(** no collaborator does anything here, so each is a [unit] *)
Definition Opts : Type :=
  Options (Tracer := unit) (Reporter := unit) (Keyfunc := unit) (SigningMethod := unit)
    (ClaimsFactory := unit) (UserExtractor := unit) (ScopesExtractor := unit).

(** [options.New()], then [RegisterMiddleware("shorten", M1, M2)] *)
Definition configured : Opts * gmap nat (list (Middleware (Endpoint := Endpoint))) :=
  RegisterMiddleware (New tt tt : Opts) "shorten" [mark "M1"; mark "M2"] ∅.

(** the log of one request through the pipeline just built, and the heap after *)
Definition build_and_run (h : gmap nat (list (Middleware (Endpoint := Endpoint))))
  : option (list string * gmap nat (list (Middleware (Endpoint := Endpoint)))) :=
  match OpMiddlewares (S := marking) configured.1 "shorten" h with
  | Some (mw, h) => Some (mw handler [], h)
  | None => None
  end.

(** the number of middlewares the table holds for an operation *)
Definition registered (h : gmap nat (list (Middleware (Endpoint := Endpoint)))) (op : string)
  : option nat :=
  middlewares configured.1 !! op ≫= λ st, length <$> h !! st.
End PipelineExamples.

(** C2 fails on the code: with tracing, error reporting and the extras M1, M2
    registered in that order, a request runs error reporting before tracing and
    M2 before M1. *)
Lemma OpMiddlewares_inbound_order :
  fst <$> PipelineExamples.build_and_run PipelineExamples.configured.2
  = Some ["error-reporting"; "tracing"; "M2"; "M1"; "handler"].
Proof. vm_compute. reflexivity. Qed.

(** C8 fails on the code: the first build pops the operation's stack empty, so
    the table changes and the second build has lost both extras. *)
Lemma OpMiddlewares_second_build :
  ∃ log1 h1 log2 h2,
    PipelineExamples.build_and_run PipelineExamples.configured.2 = Some (log1, h1)
    ∧ PipelineExamples.build_and_run h1 = Some (log2, h2)
    ∧ log1 = ["error-reporting"; "tracing"; "M2"; "M1"; "handler"]
    ∧ log2 = ["error-reporting"; "tracing"; "handler"]
    ∧ PipelineExamples.registered PipelineExamples.configured.2 "shorten" = Some 2%nat
    ∧ PipelineExamples.registered h1 "shorten" = Some 0%nat.
Proof.
  destruct (PipelineExamples.build_and_run PipelineExamples.configured.2)
    as [[log1 h1]|] eqn:H1; [|vm_compute in H1; discriminate].
  destruct (PipelineExamples.build_and_run h1) as [[log2 h2]|] eqn:H2.
  - exists log1, h1, log2, h2. split; [done|]. split; [done|].
    vm_compute in H1. injection H1 as <- <-.
    vm_compute in H2. injection H2 as <- _. vm_compute. auto.
  - vm_compute in H1. injection H1 as _ <-. vm_compute in H2. discriminate.
Qed.


(** ** The scope guard *)

Module GuardExamples.
Import jennyhttp auth.

Definition serve : Endpoint (Request := string) (Response := string) :=
  λ _ request, inl ("served " +:+ request).

Definition ctx_read : Context := WithScopes Background ["read"].
Definition ctx_read_write : Context := WithScopes Background ["read"; "write"].
Definition ctx_read_write_admin : Context := WithScopes Background ["read"; "write"; "admin"].
End GuardExamples.

Section GuardFacts.
Import jennyhttp auth.
Context {Request Response : Type}.
Context `{R : GoRuntime} {RS : GoRuntimeSpec R}.

Lemma lookup_foldl_insert (b : bool) (l : list string) (x : gmap string bool) (s : string) :
  foldl (λ x k, <[k := b]> x) x l !! s = if decide (s ∈ l) then Some b else x !! s.
Proof.
  revert x. induction l as [|k l IH]; intros x; cbn [foldl].
  - rewrite decide_False; [done | apply not_elem_of_nil].
  - rewrite IH. destruct (decide (s ∈ l)) as [Hin|Hout].
    + rewrite decide_True; [done | by apply list_elem_of_further].
    + destruct (decide (s = k)) as [->|Hne].
      * rewrite decide_True; [apply lookup_insert_eq | apply list_elem_of_here].
      * rewrite decide_False; [by apply lookup_insert_ne|].
        intros [->|H]%elem_of_cons; done.
Qed.

Lemma check_loop (l : list (string * bool)) (hasAccess : bool) (missingScopes : list string) :
  foldl (λ '(hasAccess, missingScopes) '(scope, checked),
           (hasAccess && checked, (missingScopes ++ [scope])%list))
        (hasAccess, missingScopes) l
  = (hasAccess && forallb snd l, (missingScopes ++ l.*1)%list).
Proof.
  revert hasAccess missingScopes.
  induction l as [|[scope checked] l IH]; intros hasAccess missingScopes; simpl.
  - by rewrite andb_true_r, app_nil_r.
  - by rewrite IH, andb_assoc, <- app_assoc.
Qed.

(** the check list of the first invocation of a guard *)
Lemma first_checkList (required granted : list string) (s : string) :
  foldl (λ checkList scope, <[scope := true]> checkList) (RequireScopes required) granted !! s
  = if decide (s ∈ granted) then Some true
    else if decide (s ∈ required) then Some false else None.
Proof.
  rewrite lookup_foldl_insert. destruct (decide (s ∈ granted)); [done|].
  unfold RequireScopes. by rewrite lookup_foldl_insert, lookup_empty.
Qed.

(** C6, as the code has it, for the first invocation of a guard: scopes that
    are unset count as none; the request goes through exactly when every
    required scope is granted; otherwise it is rejected with an error that
    names every missing scope. The names come in the order of the [range] over
    the check list; nothing sorts them. *)
Theorem RequireScopes_first_invocation
    (required : list string) (next : Endpoint (Request := Request) (Response := Response))
    (ctx : Context) (request : Request) :
  let granted := default [] (ScopesValue ctx) in
  let outcome := (RequireScopes_endpoint next ctx request (RequireScopes required)).1 in
  (required ⊆ granted → outcome = next ctx request)
  ∧ (¬ required ⊆ granted →
     ∃ names, outcome = inr (ErrMissingScopes names)
              ∧ ∀ s, s ∈ required → s ∉ granted → s ∈ names).
Proof.
  intros granted outcome. subst outcome. unfold RequireScopes_endpoint. fold granted.
  set (checkList := foldl _ (RequireScopes required) granted).
  rewrite check_loop. simpl.
  assert (∀ s, s ∈ required → s ∉ granted → (s, false) ∈ range checkList) as Hmissing.
  { intros s Hreq Hnot. apply elem_of_range. unfold checkList.
    rewrite first_checkList. by rewrite decide_False, decide_True. }
  destruct (forallb snd (range checkList)) eqn:Hall; simpl.
  - split; [done|]. intros Hnot. exfalso. apply Hnot. intros s Hreq.
    destruct (decide (s ∈ granted)) as [|Hout]; [done|].
    rewrite forallb_forall in Hall.
    specialize (Hall _ (proj1 (list_elem_of_In _ _) (Hmissing s Hreq Hout))). done.
  - split.
    + intros Hsub. exfalso.
      assert (forallb snd (range checkList) = true) as Htrue; [|congruence].
      apply forallb_forall. intros [s checked] Hin%list_elem_of_In%elem_of_range.
      unfold checkList in Hin. rewrite first_checkList in Hin.
      destruct (decide (s ∈ granted)); [by injection Hin as <-|].
      destruct (decide (s ∈ required)) as [Hreq|]; [|done].
      by apply Hsub in Hreq.
    + intros _. eexists. split; [done|].
      intros s Hreq Hout. apply list_elem_of_fmap. exists (s, false). auto.
Qed.

End GuardFacts.

Lemma RequireScopes_first_invocation_witness :
  (auth.RequireScopes_endpoint (R := runtime_fwd) GuardExamples.serve
     GuardExamples.ctx_read_write_admin "request" (auth.RequireScopes ["read"; "write"])).1
  = inl "served request"
  ∧ ∃ names,
      (auth.RequireScopes_endpoint (R := runtime_fwd) GuardExamples.serve
         GuardExamples.ctx_read "request" (auth.RequireScopes ["read"; "write"])).1
      = inr (ErrMissingScopes names)
      ∧ "write" ∈ names.
Proof.
  split.
  - refine (proj1 (RequireScopes_first_invocation (R := runtime_fwd) (RS := runtime_fwd_spec)
                     ["read"; "write"] GuardExamples.serve
                     GuardExamples.ctx_read_write_admin "request") _).
    intros s Hs. simpl.
    apply elem_of_cons in Hs as [->|Hs]; [apply list_elem_of_here|].
    apply elem_of_cons in Hs as [->|Hs]; [apply list_elem_of_further, list_elem_of_here|].
    by apply not_elem_of_nil in Hs.
  - destruct (proj2 (RequireScopes_first_invocation (R := runtime_fwd) (RS := runtime_fwd_spec)
                       ["read"; "write"] GuardExamples.serve
                       GuardExamples.ctx_read "request")) as (names & Hnames & Hin).
    + simpl. intros Hsub.
      specialize (Hsub "write" (list_elem_of_further _ _ _ (list_elem_of_here _ _))).
      apply elem_of_cons in Hsub as [Heq|Hnil]; [discriminate | by apply not_elem_of_nil in Hnil].
    + exists names. split; [exact Hnames|].
      apply Hin; [apply list_elem_of_further, list_elem_of_here|].
      simpl. intros [Heq|Hnil]%elem_of_cons; [discriminate | by apply not_elem_of_nil in Hnil].
Defined.

(** C6 as stated fails: with [read] and [write] required and [read] granted,
    the error carries both names, the granted one included, and in the order
    of the [range], here [write] before [read] or [read] before [write]. And a
    guard that has served a request granted [read] and [write] lets a request
    through that is granted [read] alone. *)
Lemma RequireScopes_error_names_granted_scope :
  (auth.RequireScopes_endpoint (R := runtime_fwd) GuardExamples.serve
     GuardExamples.ctx_read "request" (auth.RequireScopes ["read"; "write"])).1
  = inr (ErrMissingScopes ["write"; "read"])
  ∧ (auth.RequireScopes_endpoint (R := runtime_bwd) GuardExamples.serve
       GuardExamples.ctx_read "request" (auth.RequireScopes ["read"; "write"])).1
    = inr (ErrMissingScopes ["read"; "write"])
  ∧ Error (ErrMissingScopes ["read"; "write"]) = "request is missing these scopes: read, write"
  ∧ (auth.RequireScopes_endpoint (R := runtime_fwd) GuardExamples.serve
       GuardExamples.ctx_read "request"
       (auth.RequireScopes_endpoint (R := runtime_fwd) GuardExamples.serve
          GuardExamples.ctx_read_write "earlier" (auth.RequireScopes ["read"; "write"])).2).1
    = inl "served request".
Proof. vm_compute. auto. Qed.

(** C10 fails on the code: the guard remembers. After one request that was
    granted [read] and [write], a request without any scope passes the same
    guard; a guard that has served no request rejects it. *)
Lemma RequireScopes_remembers_granted_scopes :
  let guard := auth.RequireScopes ["read"; "write"] in
  let first := auth.RequireScopes_endpoint (R := runtime_fwd) GuardExamples.serve
                 GuardExamples.ctx_read_write "one" guard in
  let second := auth.RequireScopes_endpoint (R := runtime_fwd) GuardExamples.serve
                  jennyhttp.Background "two" first.2 in
  first.1 = inl "served one"
  ∧ second.1 = inl "served two"
  ∧ (auth.RequireScopes_endpoint (R := runtime_fwd) GuardExamples.serve
       jennyhttp.Background "two" guard).1
    = inr (ErrMissingScopes ["write"; "read"]).
Proof. vm_compute. auto. Qed.

(** * Further properties *)

(** ** Building graphs *)

Section GraphFacts.
Import GoStrings mime.

(** the (group, subtype) pairs that a media type contributes to a graph: its
    group, with each piece of its subtype between the [+] signs *)
Definition explode (v : string) : list (string * string) :=
  (λ subType, (Trim_slash (path_Split v).1, subType)) <$> Split_plus (path_Split v).2.

Lemma foldl_set_weight_pieces (group : string) (w : Q) (pieces : list string) (g : Types)
    (group' sub' : string) :
  get_weight (foldl (λ g subType, set_weight g group subType w) g pieces) group' sub'
  = if decide (group' = group ∧ sub' ∈ pieces) then Some w else get_weight g group' sub'.
Proof.
  revert g. induction pieces as [|piece pieces IH]; intros g; cbn [foldl].
  - rewrite decide_False; [done|]. intros [_ H]. by apply not_elem_of_nil in H.
  - rewrite IH, get_weight_set_weight. clear IH.
    destruct (decide (group' = group ∧ sub' ∈ pieces)) as [[Hg Hin]|Hno].
    + rewrite decide_True; [done|]. split; [done | by apply list_elem_of_further].
    + destruct (decide (group' = group ∧ sub' = piece)) as [[Hg ->]|Hno'].
      * rewrite decide_True; [done|]. split; [done | apply list_elem_of_here].
      * rewrite decide_False; [done|]. intros [Hg [->|Hin]%elem_of_cons]; [by apply Hno' | by apply Hno].
Qed.

Lemma add_exploded_lookup (g : Types) (v : string) (w : Q) (group sub : string) :
  get_weight (add_exploded g v w) group sub
  = if decide ((group, sub) ∈ explode v) then Some w else get_weight g group sub.
Proof.
  unfold add_exploded, explode. destruct (path_Split v) as [dir file]. simpl.
  rewrite foldl_set_weight_pieces.
  destruct (decide (group = Trim_slash dir ∧ sub ∈ Split_plus file)) as [[-> Hin]|Hno].
  - rewrite decide_True; [done|]. apply list_elem_of_fmap. eauto.
  - rewrite decide_False; [done|]. intros (p & [= -> ->] & Hin)%list_elem_of_fmap. by apply Hno.
Qed.

Lemma get_weight_empty (group sub : string) : get_weight ∅ group sub = None.
Proof. unfold get_weight. by rewrite lookup_empty. Qed.

Lemma Aggregate_get_weight (list : list string) (group sub : string) :
  get_weight (Aggregate list) group sub
  = if decide ((group, sub) ∈ list ≫= explode) then Some 1%Q else None.
Proof.
  unfold Aggregate.
  assert (∀ g, get_weight (foldl (λ g s, add_exploded g s 1%Q) g list) group sub
               = if decide ((group, sub) ∈ list ≫= explode) then Some 1%Q
                 else get_weight g group sub) as H.
  { induction list as [|t list IH]; intros g; cbn [foldl].
    - rewrite decide_False; [done|]. apply not_elem_of_nil.
    - rewrite IH, add_exploded_lookup. clear IH.
      change ((t :: list) ≫= explode) with (explode t ++ (list ≫= explode))%list.
      destruct (decide ((group, sub) ∈ list ≫= explode)) as [Hin|Hout].
      + rewrite decide_True; [done|]. apply elem_of_app. by right.
      + destruct (decide ((group, sub) ∈ explode t)) as [Hin|Hout'].
        * rewrite decide_True; [done|]. apply elem_of_app. by left.
        * rewrite decide_False; [done|]. intros [?|?]%elem_of_app; done. }
  rewrite H. by rewrite get_weight_empty.
Qed.

(** X1: [Aggregate] holds exactly the pairs that the listed types explode to, each
    at weight 1: nothing else gets in, and no listed type is lost or weighted
    otherwise, also when types repeat or share pieces. *)
Theorem Aggregate_lookup (list : list string) (group sub : string) (w : Q) :
  get_weight (Aggregate list) group sub = Some w
  ↔ (group, sub) ∈ list ≫= explode ∧ w = 1%Q.
Proof.
  rewrite Aggregate_get_weight. destruct (decide _) as [Hin|Hout].
  - split; [by intros [= <-] | by intros [_ ->]].
  - split; [done | by intros [? _]].
Qed.

(** X2: [RequestTypes] gives a pair the quality of the last media range of the
    header that explodes to it, and holds no pair that no range explodes to. *)
Theorem RequestTypes_last_range_wins (specs : list AcceptSpec) (group sub : string) :
  get_weight (RequestTypes specs) group sub
  = Q_ <$> last (filter (λ v, (group, sub) ∈ explode (Value v)) specs).
Proof.
  unfold RequestTypes. induction specs as [|v specs IH] using rev_ind.
  - simpl. apply get_weight_empty.
  - rewrite foldl_snoc, add_exploded_lookup, IH, filter_app.
    destruct (decide ((group, sub) ∈ explode (Value v))) as [Hin|Hout].
    + rewrite (filter_cons_True _ v []) by done. rewrite filter_nil. by rewrite last_snoc.
    + rewrite (filter_cons_False _ v []) by done. by rewrite filter_nil, app_nil_r.
Qed.

End GraphFacts.

(** ** Walking and intersecting *)

Section IntersectMore.
Import GoStrings mime.
Context `{R : GoRuntime} {RS : GoRuntimeSpec R}.

(** X3: A walk hands its callback every entry of the graph, each exactly once,
    whatever the order of the [range] and whatever [sort.Slice] does with the
    comparison: with a callback that never fails, the walk returns no error
    and its result is the callback folded over a duplicate-free list of
    exactly the entries of the graph. *)
Theorem Walk_calls_back_once_per_entry {S : Type} (t : Types) (f : string → S → S) (st : S) :
  ∃ entries,
    NoDup entries
    ∧ (∀ e, e ∈ entries ↔ get_weight t (typ e) (subTyp e) = Some (q e))
    ∧ Walk t (λ m st, (f m st, None)) st
      = (foldl (λ st e, f (Sprintf_slash (typ e) (subTyp e)) st) st entries, None).
Proof.
  exists (sorted_specs t).
  destruct (Walk_visits_each_entry_once t) as [Hnd Hin].
  split; [done|]. split; [done|].
  unfold Walk. by rewrite walk_loop_total.
Qed.

Lemma expand_without_global_wildcard (a b : Types) :
  get_weight b wildcard wildcard = None → expand a b = b.
Proof.
  unfold expand, get_weight. destruct (b !! wildcard) as [x|]; simpl; [|done].
  by intros ->.
Qed.

(** X4: Without [*/*] in the client graph, [Intersect] leaves that graph as it is
    and keeps a pair exactly when the server graph holds it and the client
    graph holds it or the wildcard of its group; the weight is the client's
    for the pair itself, and 0 for a pair that only the wildcard admits. The
    server's weights play no part. *)
Theorem Intersect_without_global_wildcard (a b : Types) (group sub : string) :
  get_weight b wildcard wildcard = None →
  (Intersect a b).2 = b
  ∧ get_weight (Intersect a b).1 group sub
    = match get_weight a group sub with
      | None => None
      | Some _ =>
          match get_weight b group sub with
          | Some w => Some w
          | None => if decide (is_Some (get_weight b group wildcard)) then Some 0%Q else None
          end
      end.
Proof.
  intros Hb. rewrite Intersect_lookup. unfold Intersect. simpl.
  rewrite (expand_without_global_wildcard a b Hb). split; [done|].
  destruct (get_weight a group sub) as [wa|]; [|by rewrite decide_False by (by intros [? ?])].
  rewrite decide_True by eauto.
  unfold selected, kept, get_weight. destruct (b !! group) as [bgroup|]; simpl.
  - destruct (bgroup !! sub); [done|].
    destruct (decide (is_Some (bgroup !! wildcard))).
    + by rewrite bool_decide_eq_true_2.
    + by rewrite bool_decide_eq_false_2.
  - done.
Qed.

(** X5: [Intersect] never returns a pair that the server graph lacks, whatever the
    client sends, wildcards included. *)
Theorem Intersect_only_offered (a b : Types) (group sub : string) :
  get_weight a group sub = None → get_weight (Intersect a b).1 group sub = None.
Proof.
  intros Ha. rewrite Intersect_lookup, Ha. by rewrite decide_False by (by intros [? ?]).
Qed.

(** X6: [Intersect] writes into the client graph it is given: when that graph
    holds [*/*] at weight [q], the caller finds every type of the server's list
    in it afterwards at weight [q], also where the client had asked for the
    type at another weight. *)
Theorem Intersect_overwrites_client_graph
    (list : list string) (b : Types) (x : gmap string Q) (w : Q) (group sub : string) :
  b !! wildcard = Some x → x !! wildcard = Some w →
  (group, sub) ∈ list ≫= explode →
  get_weight (Intersect (Aggregate list) b).2 group sub = Some w.
Proof.
  intros Hb Hx Hin. unfold Intersect. simpl.
  assert (get_weight (Aggregate list) group sub = Some 1%Q) as Ha.
  { by rewrite Aggregate_get_weight, decide_True. }
  destruct (Aggregate_names list group sub _ Ha) as [Hg Hs].
  by apply (expand_copies_entry _ b x w 1%Q).
Qed.

End IntersectMore.

Module GraphExamples.
Import mime.
(** [Accept: application/json;q=0.5, */*;q=0.1] *)
Definition json_or_anything : Types :=
  RequestTypes [ {| Value := "application/json"; Q_ := 1 # 2 |};
                 {| Value := "*/*"; Q_ := 1 # 10 |} ].
End GraphExamples.

Lemma Intersect_without_global_wildcard_witness :
  mime.get_weight
    (mime.Intersect (R := runtime_fwd) (mime.Aggregate ["application/json"; "text/plain"])
       WalkExamples.json_over_plain).1 "text" "plain"
  = Some (1 # 2)%Q.
Proof.
  refine (eq_trans (proj2 (Intersect_without_global_wildcard (R := runtime_fwd)
                             (RS := runtime_fwd_spec) _ WalkExamples.json_over_plain
                             "text" "plain" _)) _).
  - vm_compute. reflexivity.
  - vm_compute. reflexivity.
Defined.

Lemma Intersect_only_offered_witness :
  mime.get_weight
    (mime.Intersect (R := runtime_fwd) (mime.Aggregate ["application/json"])
       GraphExamples.json_or_anything).1 "text" "html"
  = None.
Proof.
  refine (Intersect_only_offered (R := runtime_fwd) (RS := runtime_fwd_spec) _ _ _ _ _).
  vm_compute. reflexivity.
Defined.

Lemma Intersect_overwrites_client_graph_witness :
  mime.get_weight GraphExamples.json_or_anything "application" "json" = Some (1 # 2)%Q
  ∧ mime.get_weight
      (mime.Intersect (R := runtime_fwd) (mime.Aggregate ["application/json"])
         GraphExamples.json_or_anything).2 "application" "json"
    = Some (1 # 10)%Q.
Proof.
  split; [vm_compute; reflexivity|].
  refine (Intersect_overwrites_client_graph (R := runtime_fwd) (RS := runtime_fwd_spec)
            ["application/json"] GraphExamples.json_or_anything
            {[ "*" := (1 # 10)%Q ]} (1 # 10)%Q "application" "json" _ _ _).
  - vm_compute. reflexivity.
  - vm_compute. reflexivity.
  - vm_compute. apply list_elem_of_here.
Defined.

Lemma Walk_calls_back_once_per_entry_witness :
  ∃ entries,
    NoDup entries
    ∧ (∀ e, e ∈ entries
            ↔ mime.get_weight WalkExamples.json_over_plain (mime.typ e) (mime.subTyp e)
              = Some (mime.q e))
    ∧ mime.Walk (R := runtime_bwd) WalkExamples.json_over_plain (λ m seen, (m :: seen, None)) []
      = (foldl (λ seen e, mime.Sprintf_slash (mime.typ e) (mime.subTyp e) :: seen) [] entries,
         None).
Proof.
  exact (Walk_calls_back_once_per_entry (R := runtime_bwd) (RS := runtime_bwd_spec)
           WalkExamples.json_over_plain (λ m seen, m :: seen) []).
Defined.

(** ** Names round trip *)

Section NamesMore.
Import GoStrings mime.

Lemma explode_names (v group sub : string) :
  (group, sub) ∈ explode v → Trim_slash group = group ∧ slashless sub = true.
Proof.
  unfold explode. intros (piece & [= -> ->] & Hin)%list_elem_of_fmap. split.
  - apply Trim_slash_idemp.
  - pose proof (Split_plus_slashless _ (path_Split_file_slashless v)) as Hall.
    rewrite Forall_forall in Hall. by apply Hall.
Qed.

(** X7: What a walk formats, [Group] and [SubGroup] take apart again: for every
    pair that a media type explodes to, so for every entry of a graph built by
    [Aggregate] or [RequestTypes], the type string [group/subtype] splits back
    into that group and that subtype. *)
Theorem Group_SubGroup_of_exploded (v group sub : string) :
  (group, sub) ∈ explode v →
  Group (Sprintf_slash group sub) = group ∧ SubGroup (Sprintf_slash group sub) = sub.
Proof.
  intros [Hg Hs]%explode_names. by apply Group_SubGroup_join.
Qed.

End NamesMore.

Lemma Group_SubGroup_of_exploded_witness :
  mime.Group "application/vnd.api" = "application"
  ∧ mime.SubGroup "application/vnd.api" = "vnd.api".
Proof.
  refine (Group_SubGroup_of_exploded "application/vnd.api+json" "application" "vnd.api" _).
  vm_compute. apply list_elem_of_here.
Defined.

(** ** The response encoder and its middleware *)

Section EncoderMore.
Import GoStrings mime jennyhttp encoders encoders_middleware.
Context {Request Response : Type}.
Context `{R : GoRuntime} {RS : GoRuntimeSpec R}.

(** no graph that the package builds holds a group without subtypes *)
Definition groups_nonempty (g : Types) : Prop :=
  ∀ group subs, g !! group = Some subs → subs ≠ ∅.

Lemma set_weight_groups_nonempty (g : Types) (group sub : string) (w : Q) :
  groups_nonempty g → groups_nonempty (set_weight g group sub w).
Proof.
  intros Hg group' subs. unfold set_weight.
  destruct (decide (group' = group)) as [->|Hne].
  - rewrite lookup_insert_eq. intros [= <-]. apply insert_non_empty.
  - rewrite lookup_insert_ne by done. apply Hg.
Qed.

Lemma foldl_groups_nonempty {A : Type} (f : Types → A → Types) (l : list A) (g : Types) :
  (∀ g x, groups_nonempty g → groups_nonempty (f g x)) →
  groups_nonempty g → groups_nonempty (foldl f g l).
Proof.
  intros Hf. revert g. induction l as [|x l IH]; intros g Hg; simpl; [done|].
  by apply IH, Hf.
Qed.

Lemma Aggregate_groups_nonempty (accepts : list string) : groups_nonempty (Aggregate accepts).
Proof.
  unfold Aggregate. apply foldl_groups_nonempty; [|by intros group subs; rewrite lookup_empty].
  intros g s Hg. unfold add_exploded. destruct (path_Split s) as [dir file].
  apply foldl_groups_nonempty; [|done].
  intros g' piece. apply set_weight_groups_nonempty.
Qed.

Lemma select_groups_nonempty (a b : Types) : groups_nonempty (select a b).
Proof.
  unfold select. apply foldl_groups_nonempty; [|by intros group subs; rewrite lookup_empty].
  intros g [group subgroups] Hg. destruct (b !! group) as [bgroup|]; [|done].
  apply foldl_groups_nonempty; [|done].
  intros g' [sub w] Hg'. destruct (_ || _); [|done]. by apply set_weight_groups_nonempty.
Qed.

Lemma candidates_groups_nonempty (accepts : list string) (clientGraph : Types) :
  groups_nonempty (candidates (Aggregate accepts) clientGraph).
Proof.
  rewrite candidates_fallback. destruct (decide _).
  - apply Aggregate_groups_nonempty.
  - unfold Intersect. simpl. apply select_groups_nonempty.
Qed.

Lemma sorted_specs_nil_empty (t : Types) :
  groups_nonempty t → sorted_specs t = [] → t = ∅.
Proof.
  intros Hne Hnil. apply map_eq. intros group. rewrite lookup_empty.
  apply eq_None_not_Some. intros [subs Hsubs].
  destruct (map_choose subs (Hne group subs Hsubs)) as (sub & w & Hw).
  assert ({| typ := group; subTyp := sub; q := w |} ∈ sorted_specs t) as Hin.
  { apply Walk_visits_each_entry_once. unfold get_weight. simpl. by rewrite Hsubs. }
  rewrite Hnil in Hin. by apply not_elem_of_nil in Hin.
Qed.

Lemma candidates_offered (accepts : list string) (clientGraph : Types) (e : mimeSpec) :
  e ∈ sorted_specs (candidates (Aggregate accepts) clientGraph) →
  (typ e, subTyp e) ∈ accepts ≫= explode.
Proof.
  intros Hin%Walk_visits_each_entry_once.
  assert (is_Some (get_weight (Aggregate accepts) (typ e) (subTyp e))) as Hoffered.
  { rewrite candidates_fallback in Hin. destruct (decide _); [eauto|].
    rewrite Intersect_lookup in Hin. by destruct (decide _). }
  rewrite Aggregate_get_weight in Hoffered. destruct (decide _); [done | by destruct Hoffered].
Qed.

(** what the closure of [ResponseEncoder] has found when the walk is over *)
Definition found_in (encoders : gmap string NewEncoderFunc) (types : list mimeSpec)
    (st : NewEncoderFunc * string) : Prop :=
  (st.1 = None ∧ st.2 = "") ∨ ∃ t, t ∈ types ∧ st.2 = spec_Type t ∧ encoders !! st.2 = Some st.1.

Lemma walk_loop_pick_found_in encoders (all types : list mimeSpec) st :
  types ⊆ all → found_in encoders all st →
  found_in encoders all (walk_loop (pick encoders) types st).1.
Proof.
  revert st. induction types as [|t types IH]; intros [newEnc mimeType] Hsub Hst; [done|].
  cbn [walk_loop]. unfold pick at 1. destruct newEnc as [nef|].
  - apply IH; [|done]. intros x Hx. by apply Hsub, list_elem_of_further.
  - destruct (encoders !! spec_Type t) as [nef|] eqn:Hnef; [|done].
    apply IH; [intros x Hx; by apply Hsub, list_elem_of_further|].
    right. exists t. split; [apply Hsub, list_elem_of_here | done].
Qed.

(** X8: [ResponseEncoder] answers only with a type of the server's list, in
    exploded form, together with the encoder registered for it, or with
    [application/octet-stream] and whatever is registered for that: a type that
    only the client named is never returned. *)
Theorem ResponseEncoder_returns_offered_type
    (encoders : gmap string NewEncoderFunc) (ctx : Context) (accepts : list string)
    (enc : NewEncoderFunc) (t : string) :
  ResponseEncoder encoders ctx accepts = inl (enc, t) →
  (t = ApplicationOctet ∧ enc = default None (encoders !! ApplicationOctet))
  ∨ ∃ group sub, t = Sprintf_slash group sub
                 ∧ (group, sub) ∈ accepts ≫= explode
                 ∧ encoders !! t = Some enc.
Proof.
  unfold ResponseEncoder, ContextAccepts, Walk.
  destruct (Accepts ctx) as [clientGraph|]; [|done].
  set (types := sorted_specs (candidates (Aggregate accepts) clientGraph)).
  pose proof (walk_loop_pick_found_in encoders types types (None, "")) as Hfound.
  destruct (walk_loop (pick encoders) types (None, "")) as [[newEnc mimeType] err].
  destruct err as [err|]; [done|].
  destruct newEnc as [nef|]; [|intros [= <- <-]; by left].
  destruct (bool_decide (mimeType = "")) eqn:Hempty; [intros [= <- <-]; by left|].
  intros [= <- <-]. right.
  destruct Hfound as [[Hnone _]|(e & Hin & Ht & Henc)]; [done | by left | done |].
  simpl in *. exists (typ e), (subTyp e). split; [done|]. split; [|done].
  by apply (candidates_offered accepts clientGraph).
Qed.

Lemma ResponseEncoder_ok_when_registered
    (encoders : gmap string NewEncoderFunc) (ctx : Context) (accepts : list string)
    (clientGraph : Types) :
  Accepts ctx = Some clientGraph →
  (∀ group sub, (group, sub) ∈ accepts ≫= explode →
                ∃ nef, encoders !! Sprintf_slash group sub = Some (Some nef)) →
  (accepts = []
   ∧ ResponseEncoder encoders ctx accepts
     = inl (default None (encoders !! ApplicationOctet), ApplicationOctet))
  ∨ ∃ group sub nef,
      (group, sub) ∈ accepts ≫= explode
      ∧ encoders !! Sprintf_slash group sub = Some (Some nef)
      ∧ ResponseEncoder encoders ctx accepts = inl (Some nef, Sprintf_slash group sub).
Proof.
  intros Hctx Hreg. unfold ResponseEncoder, ContextAccepts, Walk. rewrite Hctx.
  pose proof (candidates_offered accepts clientGraph) as Hoffered.
  pose proof (candidates_empty_iff accepts clientGraph) as Hempty.
  destruct (sorted_specs (candidates (Aggregate accepts) clientGraph)) as [|e types] eqn:Hspecs.
  - left. split; [|done]. apply Hempty.
    apply sorted_specs_nil_empty; [apply candidates_groups_nonempty | done].
  - right. destruct (Hreg _ _ (Hoffered e (list_elem_of_here _ _))) as [nef Hnef].
    exists (typ e), (subTyp e), nef.
    split; [apply Hoffered, list_elem_of_here|]. split; [done|].
    change (Sprintf_slash (typ e) (subTyp e)) with (spec_Type e) in *.
    cbn [walk_loop]. unfold pick at 1. rewrite Hnef.
    rewrite walk_loop_pick_found.
    by rewrite bool_decide_eq_false_2 by apply spec_Type_nonempty.
Qed.

(** X9: When the context carries a client graph and every type of the server's
    list, in exploded form, has a non-nil encoder registered, [ResponseEncoder]
    does not fail, whatever the client accepts. *)
Theorem ResponseEncoder_succeeds_when_registered
    (encoders : gmap string NewEncoderFunc) (ctx : Context) (accepts : list string)
    (clientGraph : Types) :
  Accepts ctx = Some clientGraph →
  (∀ group sub, (group, sub) ∈ accepts ≫= explode →
                ∃ nef, encoders !! Sprintf_slash group sub = Some (Some nef)) →
  ∃ enc t, ResponseEncoder encoders ctx accepts = inl (enc, t).
Proof.
  intros Hctx Hreg.
  destruct (ResponseEncoder_ok_when_registered encoders ctx accepts clientGraph Hctx Hreg)
    as [[_ ->]|(group & sub & nef & _ & _ & ->)]; eauto.
Qed.


(** X11: [match] returns no match at all: it panics on the first type of a non-empty
    [methodSpec], and for an empty one nothing can match. *)
Theorem match_never_matches (specs : list AcceptSpec) (methodSpec : list string) :
  match_ specs methodSpec = if bool_decide (methodSpec = []) then Some [] else None.
Proof.
  unfold match_. destruct methodSpec as [|a rest]; simpl.
  - f_equal. induction specs as [|spec specs IH] using rev_ind; [done|].
    rewrite foldl_snoc, IH. destruct (path_Split (Value spec)) as [group subgroup].
    by rewrite lookup_empty.
  - destruct (path_Split a) as [group subgroup]. by rewrite lookup_empty.
Qed.

End EncoderMore.

(** a decidable form of: every type of the list, exploded, has a non-nil encoder *)
Definition all_registered (encoders : gmap string encoders.NewEncoderFunc)
    (accepts : list string) : bool :=
  forallb (λ '(group, sub),
             match encoders !! mime.Sprintf_slash group sub with
             | Some (Some _) => true
             | _ => false
             end) (accepts ≫= explode).

Lemma all_registered_spec (encoders : gmap string encoders.NewEncoderFunc)
    (accepts : list string) :
  all_registered encoders accepts = true →
  ∀ group sub, (group, sub) ∈ accepts ≫= explode →
               ∃ nef, encoders !! mime.Sprintf_slash group sub = Some (Some nef).
Proof.
  unfold all_registered. intros Hall group sub Hin.
  rewrite forallb_forall in Hall. apply list_elem_of_In in Hin.
  specialize (Hall _ Hin). simpl in Hall.
  destruct (encoders !! mime.Sprintf_slash group sub) as [[nef|]|]; [eauto|done|done].
Qed.

Lemma ResponseEncoder_returns_offered_type_witness :
  (mime.ApplicationJSON = mime.ApplicationOctet
   ∧ Some encoders.JSONEncoder = default None (encoders.registry0 !! mime.ApplicationOctet))
  ∨ ∃ group sub, mime.ApplicationJSON = mime.Sprintf_slash group sub
                 ∧ (group, sub) ∈ [mime.ApplicationXML; mime.ApplicationJSON] ≫= explode
                 ∧ encoders.registry0 !! mime.ApplicationJSON = Some (Some encoders.JSONEncoder).
Proof.
  refine (ResponseEncoder_returns_offered_type (R := runtime_fwd) (RS := runtime_fwd_spec)
            encoders.registry0
            ResolveExamples.ctx_html_then_json [mime.ApplicationXML; mime.ApplicationJSON]
            (Some encoders.JSONEncoder) mime.ApplicationJSON _).
  vm_compute. reflexivity.
Defined.

Lemma ResponseEncoder_succeeds_when_registered_witness :
  ∃ enc t,
    encoders.ResponseEncoder (R := runtime_bwd) encoders.registry0
      ResolveExamples.ctx_html_then_json [mime.ApplicationXML; mime.TextPlain]
    = inl (enc, t).
Proof.
  refine (ResponseEncoder_succeeds_when_registered (R := runtime_bwd) (RS := runtime_bwd_spec)
            encoders.registry0 ResolveExamples.ctx_html_then_json
            [mime.ApplicationXML; mime.TextPlain] ResolveExamples.html_then_json _ _).
  - reflexivity.
  - apply all_registered_spec. vm_compute. reflexivity.
Defined.


(** ** More of package decoders *)

Section DecoderMore.
Import GoStrings mime decoders.
Context `{R : GoRuntime} {RS : GoRuntimeSpec R}.
Variable ParseAccept : string → list AcceptSpec.

(** what the closure of the decoder functions has assigned when the walk is over *)
Definition assigned_from (decoders : gmap string newDecoder) (body : string)
    (types : list mimeSpec) (dec : option Decoder) : Prop :=
  match dec with
  | None => True
  | Some dec => ∃ t, t ∈ types ∧ decoders !! spec_Type t = Some (constructor dec)
                     ∧ reader dec = body
  end.

Lemma walk_loop_assign_from decoders body (all types : list mimeSpec) dec :
  types ⊆ all → assigned_from decoders body all dec →
  assigned_from decoders body all (walk_loop (assign decoders body) types dec).1.
Proof.
  revert dec. induction types as [|t types IH]; intros dec Hsub Hdec; [done|].
  cbn [walk_loop]. unfold assign at 1.
  destruct (decoders !! spec_Type t) as [d|] eqn:Hd; [|done].
  apply IH; [intros x Hx; by apply Hsub, list_elem_of_further|].
  exists t. split; [apply Hsub, list_elem_of_here | done].
Qed.

(** X12: [RequestDecoder] returns an error or a decoder, never neither; and a decoder
    it returns reads the body of the request and is the one registered for a
    type of the server's list, in exploded form. *)
Theorem RequestDecoder_decoder_or_error
    (decoders : gmap string newDecoder) (r : Message) (accepts : list string) :
  (∃ err, RequestDecoder ParseAccept decoders r accepts = (None, Some err))
  ∨ ∃ group sub d,
      (group, sub) ∈ accepts ≫= explode
      ∧ decoders !! Sprintf_slash group sub = Some d
      ∧ RequestDecoder ParseAccept decoders r accepts
        = (Some {| constructor := d; reader := Body r |}, None).
Proof.
  unfold RequestDecoder, Walk.
  set (available := (Intersect (Aggregate accepts) (NewTypes ParseAccept (ContentType r))).1).
  pose proof (walk_loop_assign_from decoders (Body r) (sorted_specs available)
                (sorted_specs available) None) as Hfrom.
  destruct (walk_loop _ (sorted_specs available) None) as [dec err].
  destruct err as [err|]; [eauto|].
  destruct dec as [[d body]|]; [|eauto]. right.
  destruct Hfrom as (t & Hin & Hd & Hbody); [done..|]. simpl in Hd, Hbody. subst body.
  exists (typ t), (subTyp t), d. split; [|done].
  apply Walk_visits_each_entry_once in Hin. unfold available in Hin.
  rewrite Intersect_lookup in Hin. destruct (decide _) as [Hoffered|]; [|done].
  rewrite Aggregate_get_weight in Hoffered. destruct (decide _); [done | by destruct Hoffered].
Qed.

(** X13: When nothing of the Content-Type intersects with the server's list,
    [RequestDecoder] fails with the error that names the list: the fall-back to
    the server's own graph sits behind [len(available) < 0] and is never taken. *)
Theorem RequestDecoder_without_intersection
    (decoders : gmap string newDecoder) (r : Message) (accepts : list string) :
  (Intersect (Aggregate accepts) (NewTypes ParseAccept (ContentType r))).1 = ∅ →
  RequestDecoder ParseAccept decoders r accepts = (None, Some (ErrCouldntFindDecoder accepts)).
Proof.
  intros Hempty. unfold RequestDecoder, Walk. rewrite Hempty.
  by rewrite sorted_specs_empty.
Qed.

(** X14: [ResponseDecoder] returns neither a decoder nor an error exactly when the
    Content-Type yields no candidate at all. *)
Theorem ResponseDecoder_nothing_iff_no_candidate
    (decoders : gmap string newDecoder) (r : Message) :
  ResponseDecoder ParseAccept decoders r = (None, None)
  ↔ Walk_types (NewTypes ParseAccept (ContentType r)) = [].
Proof.
  unfold ResponseDecoder, Walk, Walk_types.
  destruct (sorted_specs (NewTypes ParseAccept (ContentType r))) as [|t types]; [done|].
  split; [|done]. cbn [walk_loop]. unfold assign at 1.
  destruct (decoders !! spec_Type t) as [d|] eqn:Hd; [|done].
  destruct (walk_loop_assign_some decoders (Body r) types (spec_Type t) d Hd)
    as (c & d' & _ & _ & Hdec).
  destruct (walk_loop _ types _) as [dec err]. simpl in Hdec. by rewrite Hdec.
Qed.

End DecoderMore.

Lemma RequestDecoder_without_intersection_witness :
  decoders.RequestDecoder (R := runtime_fwd) DecodeExamples.parse_plain decoders.registry0
    {| decoders.ContentType := "text/csv"; decoders.Body := "a,b" |} ["application/json"]
  = (None, Some (ErrCouldntFindDecoder ["application/json"])).
Proof.
  refine (RequestDecoder_without_intersection (R := runtime_fwd) (RS := runtime_fwd_spec)
            DecodeExamples.parse_plain decoders.registry0 _ ["application/json"] _).
  vm_compute. reflexivity.
Defined.

Lemma RequestDecoder_decoder_or_error_witness :
  (∃ err, decoders.RequestDecoder (R := runtime_fwd) DecodeExamples.parse_plain
            decoders.registry0 DecodeExamples.json_api_response ["application/json"]
          = (None, Some err))
  ∨ ∃ group sub d,
      (group, sub) ∈ ["application/json"] ≫= explode
      ∧ decoders.registry0 !! mime.Sprintf_slash group sub = Some d
      ∧ decoders.RequestDecoder (R := runtime_fwd) DecodeExamples.parse_plain
          decoders.registry0 DecodeExamples.json_api_response ["application/json"]
        = (Some {| decoders.constructor := d; decoders.reader := "{}" |}, None).
Proof.
  exact (RequestDecoder_decoder_or_error (R := runtime_fwd) (RS := runtime_fwd_spec)
           DecodeExamples.parse_plain decoders.registry0 DecodeExamples.json_api_response
           ["application/json"]).
Defined.

Lemma ResponseDecoder_nothing_iff_no_candidate_witness :
  decoders.ResponseDecoder (R := runtime_bwd) DecodeExamples.parse_plain decoders.registry0
    DecodeExamples.untyped_response = (None, None).
Proof.
  refine (proj2 (ResponseDecoder_nothing_iff_no_candidate (R := runtime_bwd)
                   DecodeExamples.parse_plain decoders.registry0
                   DecodeExamples.untyped_response) _).
  vm_compute. reflexivity.
Defined.

(** ** Basic authentication and tokens *)

Section BasicAuthFacts.
Import auth_more.
Variable DecodeString : string → option string.

Fixpoint colonless (s : string) : bool :=
  match s with
  | EmptyString => true
  | String c rest => negb (Ascii.eqb c ":"%char) && colonless rest
  end.

Lemma prefix_append (p rest : string) : String.prefix p (p +:+ rest) = true.
Proof.
  induction p as [|c p IH]; [by destruct rest|].
  change (String c p +:+ rest) with (String c (p +:+ rest)). simpl.
  destruct (ascii_dec c c); [done|congruence].
Qed.

Lemma slice_from_append (p rest : string) : slice_from (String.length p) (p +:+ rest) = rest.
Proof. induction p as [|c p IH]; [done|]. exact IH. Qed.

Lemma prefix_slice (p s : string) :
  String.prefix p s = true → s = p +:+ slice_from (String.length p) s.
Proof.
  revert s. induction p as [|c p IH]; intros s; [done|].
  destruct s as [|a s]; [done|]. simpl. destruct (ascii_dec c a) as [->|]; [|done].
  intros H. change (String a p +:+ slice_from (String.length p) s)
    with (String a (p +:+ slice_from (String.length p) s)).
  f_equal. by apply IH.
Qed.

Lemma IndexByte_ge (s : string) (c : ascii) : -1 ≤ IndexByte s c.
Proof.
  induction s as [|a s IH]; simpl; [lia|].
  destruct (Ascii.eqb a c); [lia|]. destruct (IndexByte s c <? 0) eqn:H; lia.
Qed.

Lemma IndexByte_found (cs : string) :
  0 ≤ IndexByte cs ":"%char →
  let n := Z.to_nat (IndexByte cs ":"%char) in
  colonless (slice_to n cs) = true
  ∧ cs = slice_to n cs +:+ String ":"%char (slice_from (S n) cs).
Proof.
  induction cs as [|a cs IH]; simpl; [lia|].
  destruct (Ascii.eqb a ":"%char) eqn:Ha.
  - intros _. apply Ascii.eqb_eq in Ha as ->. done.
  - destruct (IndexByte cs ":"%char <? 0) eqn:Hi; [lia|]. intros _.
    apply Z.ltb_ge in Hi. destruct (IH Hi) as [Hless Hcs].
    replace (Z.to_nat (IndexByte cs ":"%char + 1))
      with (S (Z.to_nat (IndexByte cs ":"%char))) by lia.
    cbn [slice_to slice_from colonless]. rewrite Ha, Hless. split; [done|].
    change (String a ?x +:+ ?y) with (String a (x +:+ y)). f_equal. exact Hcs.
Qed.

Lemma IndexByte_first (u p : string) :
  colonless u = true →
  IndexByte (u +:+ String ":"%char p) ":"%char = Z.of_nat (String.length u).
Proof.
  induction u as [|a u IH]; [done|].
  change (String a u +:+ String ":"%char p) with (String a (u +:+ String ":"%char p)).
  cbn [colonless IndexByte String.length]. intros [Ha Hu]%andb_true_iff.
  apply negb_true_iff in Ha. rewrite Ha, (IH Hu).
  rewrite (proj2 (Z.ltb_ge _ _)) by lia. lia.
Qed.

Lemma slice_to_append (u rest : string) : slice_to (String.length u) (u +:+ rest) = u.
Proof.
  induction u as [|a u IH]; [by destruct rest|].
  change (String a u +:+ rest) with (String a (u +:+ rest)). simpl. by rewrite IH.
Qed.

(** X15: [parseBasicAuth] succeeds exactly on ["Basic "] followed by the encoding of
    [username:password], cut at the first colon: the user name it returns
    holds no colon, the password may. The prefix must be spelled as here. *)
Theorem parseBasicAuth_ok_iff (auth username password : string) :
  parseBasicAuth DecodeString auth = (username, password, true)
  ↔ ∃ encoded,
      auth = "Basic " +:+ encoded
      ∧ DecodeString encoded = Some (username +:+ String ":"%char password)
      ∧ colonless username = true.
Proof.
  unfold parseBasicAuth. split.
  - destruct (String.prefix prefix auth) eqn:Hprefix; [|done]. cbn [negb].
    apply prefix_slice in Hprefix.
    destruct (DecodeString (slice_from (String.length prefix) auth)) as [cs|] eqn:Hcs; [|done].
    destruct (IndexByte cs ":"%char <? 0) eqn:Hi; [done|].
    apply Z.ltb_ge in Hi. destruct (IndexByte_found cs Hi) as [Hless Hcut].
    replace (Z.to_nat (IndexByte cs ":"%char + 1))
      with (S (Z.to_nat (IndexByte cs ":"%char))) by lia.
    intros [= <- <-]. exists (slice_from (String.length prefix) auth).
    split; [exact Hprefix|]. split; [rewrite Hcs; f_equal; exact Hcut | exact Hless].
  - intros (encoded & -> & Hdec & Hless).
    change "Basic " with prefix. rewrite prefix_append, slice_from_append, Hdec. simpl.
    rewrite (IndexByte_first username password Hless).
    rewrite (proj2 (Z.ltb_ge _ _)) by lia.
    rewrite Nat2Z.id.
    replace (Z.to_nat (Z.of_nat (String.length username) + 1))
      with (String.length (username +:+ ":")).
    + rewrite slice_to_append.
      change (username +:+ String ":"%char password)
        with (username +:+ (":" +:+ password)).
      assert (∀ a b c : string, a +:+ (b +:+ c) = (a +:+ b) +:+ c) as Hassoc.
      { intros a b c. induction a as [|x a IH]; [done|].
        change (String x a +:+ ?y) with (String x (a +:+ y)). by rewrite IH. }
      by rewrite Hassoc, slice_from_append.
    + assert (∀ a b : string, String.length (a +:+ b) = (String.length a + String.length b)%nat)
        as Hlen.
      { intros a b. induction a as [|x a IH]; [done|].
        change (String x a +:+ b) with (String x (a +:+ b)). simpl. by rewrite IH. }
      rewrite Hlen. simpl. lia.
Qed.

(** X16: Without an Authorization value, with an empty one, and with one that does
    not start with ["Basic "] (so also for ["basic "] and ["Bearer "]),
    [BasicAuth] reports no credentials, and not an error: empty user name and
    password, and [ok] false. *)
Theorem BasicAuth_absent (authorization : option string) :
  (∀ auth, authorization = Some auth → String.prefix "Basic " auth = false) →
  BasicAuth DecodeString authorization = ("", "", false).
Proof.
  intros Hno. unfold BasicAuth, parseBasicAuth. destruct authorization as [auth|]; [|done].
  destruct (bool_decide (auth = "")); [done|].
  change prefix with "Basic ". by rewrite (Hno auth eq_refl).
Qed.

End BasicAuthFacts.

Module BasicAuthExamples.
(** the one pair of the doc comment of [parseBasicAuth] *)
Definition decode_example (s : string) : option string :=
  if bool_decide (s = "QWxhZGRpbjpvcGVuIHNlc2FtZQ==") then Some "Aladdin:open sesame" else None.
End BasicAuthExamples.

Lemma parseBasicAuth_ok_iff_witness :
  auth_more.parseBasicAuth BasicAuthExamples.decode_example "Basic QWxhZGRpbjpvcGVuIHNlc2FtZQ=="
  = ("Aladdin", "open sesame", true).
Proof.
  refine (proj2 (parseBasicAuth_ok_iff BasicAuthExamples.decode_example _ _ _) _).
  exists "QWxhZGRpbjpvcGVuIHNlc2FtZQ==". split; [reflexivity|]. split; reflexivity.
Defined.

Lemma BasicAuth_absent_witness :
  auth_more.BasicAuth BasicAuthExamples.decode_example
    (Some "basic QWxhZGRpbjpvcGVuIHNlc2FtZQ==") = ("", "", false).
Proof.
  refine (BasicAuth_absent BasicAuthExamples.decode_example _ _).
  intros auth [= <-]. reflexivity.
Defined.

Section TokenFacts.
Import jennyhttp auth auth_more.
Context {Request Response : Type}.
Variable ParseWithClaims : string → option Token * option error.

(** X17: What [JWTToContext] stores, [ScopesToContext] and [ContextJWT] cannot read:
    it stores the claims of the token, they look for the token itself. When
    the incoming context holds no token under the claims key and [JWTToContext]
    hands a context on, [ScopesToContext] passes that context on unchanged
    without calling the extractor, for every token string, and [ContextJWT]
    fails on it. *)
Theorem JWTToContext_claims_are_no_token
    (claimsScopes : JWTScopesExtrator) (tokenString : option string) (ctx ctx' : Context) :
  (∀ token, JWTClaims ctx ≠ Some (IsToken token)) →
  jwt_ctx ParseWithClaims tokenString ctx = Some ctx' →
  scopes_ctx claimsScopes ctx' = ctx'
  ∧ ContextJWT ctx' = inr (Wrap ErrJWTNotFoundInContext "jwt to context").
Proof.
  intros Hno Hjwt.
  assert (∀ token, JWTClaims ctx' ≠ Some (IsToken token)) as Hno'.
  { unfold jwt_ctx in Hjwt. destruct tokenString as [ts|]; [|by injection Hjwt as <-].
    destruct (ParseWithClaims ts).1 as [token|]; [|done].
    destruct (Valid token); simpl in Hjwt; injection Hjwt as <-; [done | apply Hno]. }
  unfold scopes_ctx, ContextJWT.
  destruct (JWTClaims ctx') as [[token|claims]|]; [by destruct (Hno' token) | done | done].
Qed.

(** X18: [JWTToContext] followed by [UserToContext]: for a token string that parses
    to a valid token, the user that the extractor finds in the claims of that
    token is the user that [ContextUser] returns downstream. *)
Theorem JWTToContext_then_UserToContext
    (claimsUser : JWTUserExtractor) (tokenString : string) (token : Token) (user : User)
    (ctx : Context) :
  (ParseWithClaims tokenString).1 = Some token → Valid token = true →
  claimsUser (TokenClaims token) = inl user →
  ∃ ctx', jwt_ctx ParseWithClaims (Some tokenString) ctx = Some ctx'
          ∧ ContextUser (user_ctx claimsUser ctx') = inl user.
Proof.
  intros Hparse Hvalid Huser. unfold jwt_ctx. rewrite Hparse, Hvalid. simpl.
  eexists. split; [done|]. unfold user_ctx, ContextUser. simpl. by rewrite Huser.
Qed.

End TokenFacts.

Module TokenExamples.
Import jennyhttp auth.

Definition alice_token : Token :=
  {| Raw := "e30.e30.c2ln"; TokenClaims := MapClaims {[ "sub" := "alice" ]}; Valid := true |}.

Definition parse_alice (s : string) : option Token * option error :=
  if bool_decide (s = "e30.e30.c2ln") then (Some alice_token, None)
  else (None, Some (ErrHTTP "token contains an invalid number of segments" 401)).

Definition subject : JWTUserExtractor :=
  λ claims, match claims with
            | MapClaims m => match m !! "sub" with
                             | Some sub => inl {| UniqueID := sub |}
                             | None => inr (ErrHTTP "no subject" 401)
                             end
            | OtherClaims _ => inr (ErrHTTP "no map claims" 401)
            end.

Definition scope_claim : JWTScopesExtrator :=
  λ m, match m !! "scope" with
       | Some scope => inl [scope]
       | None => inr (ErrHTTP "no scope" 403)
       end.
End TokenExamples.

Lemma JWTToContext_claims_are_no_token_witness :
  ∃ ctx', auth_more.jwt_ctx TokenExamples.parse_alice (Some "e30.e30.c2ln") jennyhttp.Background
          = Some ctx'
          ∧ auth.scopes_ctx TokenExamples.scope_claim ctx' = ctx'
          ∧ auth_more.ContextJWT ctx'
            = inr (Wrap auth_more.ErrJWTNotFoundInContext "jwt to context").
Proof.
  eexists. split; [reflexivity|].
  refine (JWTToContext_claims_are_no_token TokenExamples.parse_alice TokenExamples.scope_claim
            (Some "e30.e30.c2ln") jennyhttp.Background _ _ _).
  - intros token H. discriminate H.
  - reflexivity.
Defined.

Lemma JWTToContext_then_UserToContext_witness :
  ∃ ctx', auth_more.jwt_ctx TokenExamples.parse_alice (Some "e30.e30.c2ln") jennyhttp.Background
          = Some ctx'
          ∧ auth.ContextUser (auth.user_ctx TokenExamples.subject ctx')
            = inl {| jennyhttp.UniqueID := "alice" |}.
Proof.
  refine (JWTToContext_then_UserToContext TokenExamples.parse_alice TokenExamples.subject
            "e30.e30.c2ln" TokenExamples.alice_token _ jennyhttp.Background _ _ _);
    reflexivity.
Defined.

Section GuardMore.
Import jennyhttp auth.
Context {Request Response : Type}.
Context `{R : GoRuntime} {RS : GoRuntimeSpec R}.

Lemma hasAccess_iff (checkList : gmap string bool) :
  forallb snd (range checkList) = true ↔ ∀ scope checked, checkList !! scope = Some checked → checked = true.
Proof.
  rewrite forallb_forall. split.
  - intros Hall scope checked Hin. apply elem_of_range, list_elem_of_In in Hin.
    by apply Hall in Hin.
  - intros Hall [scope checked] Hin%list_elem_of_In%elem_of_range. by apply Hall in Hin.
Qed.

(** X19: A guard that has let one request through lets every later request
    through: the check list is the captured map, an invocation only ever sets
    marks in it, and once all are set nothing clears them. So if an invocation
    does not end in the missing-scopes error, no later invocation of the same
    guard does, whatever scopes, or none, the later requests carry. *)
Theorem RequireScopes_stays_open
    (next next' : Endpoint (Request := Request) (Response := Response))
    (ctx ctx' : Context) (request request' : Request) (x : gmap string bool) :
  let first := RequireScopes_endpoint next ctx request x in
  (∀ names, first.1 ≠ inr (ErrMissingScopes names)) →
  (RequireScopes_endpoint next' ctx' request' first.2).1 = next' ctx' request'.
Proof.
  intros first Hopen. subst first. unfold RequireScopes_endpoint in *.
  set (checkList := foldl _ x (default [] (ScopesValue ctx))) in *.
  rewrite check_loop in Hopen. rewrite (check_loop (range checkList)).
  cbn [fst snd] in *.
  assert (forallb snd (range checkList) = true) as Hall.
  { destruct (forallb snd (range checkList)); [done|]. simpl in Hopen.
    by destruct (Hopen _ eq_refl). }
  set (checkList' := foldl _ checkList (default [] (ScopesValue ctx'))).
  rewrite check_loop. cbn [fst snd andb].
  assert (forallb snd (range checkList') = true) as ->; [|done].
  apply hasAccess_iff. intros scope checked. unfold checkList'.
  rewrite lookup_foldl_insert. destruct (decide _); [by intros [= <-]|].
  by apply hasAccess_iff.
Qed.

End GuardMore.

Lemma RequireScopes_stays_open_witness :
  (auth.RequireScopes_endpoint (R := runtime_fwd) GuardExamples.serve
     jennyhttp.Background "later"
     (auth.RequireScopes_endpoint (R := runtime_fwd) GuardExamples.serve
        GuardExamples.ctx_read_write_admin "first" (auth.RequireScopes ["read"; "write"])).2).1
  = inl "served later".
Proof.
  refine (RequireScopes_stays_open (R := runtime_fwd) (RS := runtime_fwd_spec)
            GuardExamples.serve GuardExamples.serve GuardExamples.ctx_read_write_admin
            jennyhttp.Background "first" "later" (auth.RequireScopes ["read"; "write"]) _).
  intros names H. vm_compute in H. discriminate H.
Defined.

(** ** More of package options *)

Section PipelineMore.
Import options.
Context {Endpoint Tracer Reporter Keyfunc SigningMethod ClaimsFactory UserExtractor ScopesExtractor : Type}.
Context {S : Stages (Endpoint := Endpoint) (Tracer := Tracer) (Reporter := Reporter)
               (Keyfunc := Keyfunc) (SigningMethod := SigningMethod)
               (ClaimsFactory := ClaimsFactory) (UserExtractor := UserExtractor)
               (ScopesExtractor := ScopesExtractor)}.

Abbreviation Mw' := (Middleware (Endpoint := Endpoint)).
Abbreviation Opts' := (Options (Tracer := Tracer) (Reporter := Reporter) (Keyfunc := Keyfunc)
                         (SigningMethod := SigningMethod) (ClaimsFactory := ClaimsFactory)
                         (UserExtractor := UserExtractor) (ScopesExtractor := ScopesExtractor)).

(** the stack that the table holds for an operation, top first *)
Definition registered_stack (m : Opts') (operation : string) (h : gmap nat (list Mw'))
  : list Mw' :=
  match middlewares m !! operation with
  | Some st => default [] (h !! st)
  | None => []
  end.

Lemma push_absent (st : nat) (v : Mw') (h : gmap nat (list Mw')) :
  h !! st = None → push st v h = push st v (<[st := []]> h).
Proof. intros H. unfold push. by rewrite H, lookup_insert_eq, insert_insert_eq. Qed.

Lemma OpMiddlewares_dangling (m : Opts') (operation : string) (st : nat)
    (h : gmap nat (list Mw')) :
  middlewares m !! operation = Some st → h !! st = None →
  OpMiddlewares m operation h = OpMiddlewares m operation (<[st := []]> h).
Proof.
  intros Hop Hst. unfold OpMiddlewares. rewrite Hop.
  destruct (scopesFunc m) as [fs|], (userFunc m) as [fu|],
           (kf m) as [k|], (sm m) as [s|], (cf m) as [c|];
    by rewrite (push_absent st _ h Hst).
Qed.

(** X20: [OpMiddlewares] for every operation, configuration and heap: it returns
    (the type assertions on [Pop] never meet nil); the middleware it returns
    runs error reporting, tracing, the optional JWT, user and scopes stages and
    then the stack registered for the operation from its top, that is, the
    extras from the last registered to the first; it leaves that stack empty;
    and it leaves the stacks of all other operations as they are. *)
Theorem OpMiddlewares_composes (m : Opts') (operation : string) (h : gmap nat (list Mw')) :
  ∃ mw h',
    OpMiddlewares m operation h = Some (mw, h')
    ∧ (∀ next, mw next
               = inbound (pushed_stages m operation ++ registered_stack m operation h) next)
    ∧ (∀ st, middlewares m !! operation = Some st → h' !! st = Some [])
    ∧ (∀ st, middlewares m !! operation ≠ Some st → st ∈ dom h → h' !! st = h !! st).
Proof.
  unfold registered_stack. destruct (middlewares m !! operation) as [st|] eqn:Hop.
  - assert (∃ mw, OpMiddlewares m operation h = Some (mw, <[st := []]> h)
                  ∧ ∀ next, mw next
                            = inbound (pushed_stages m operation ++ default [] (h !! st)) next)
      as (mw & Hmw & Hrun).
    { destruct (h !! st) as [extras|] eqn:Hst.
      - by apply OpMiddlewares_registered.
      - rewrite (OpMiddlewares_dangling m operation st h Hop Hst).
        destruct (OpMiddlewares_on_stack m operation st [] h Hop) as (mw & Hmw & Hrun). eauto. }
    exists mw, (<[st := []]> h). split; [done|]. split; [done|]. split.
    + intros st' [= <-]. apply lookup_insert_eq.
    + intros st' Hne _. apply lookup_insert_ne. congruence.
  - destruct (OpMiddlewares_unregistered m operation h Hop) as (mw & Hmw & Hrun).
    exists mw, (<[fresh (dom h) := []]> h). split; [done|]. split.
    { intros next. by rewrite app_nil_r. }
    split; [done|]. intros st _ Hin. apply lookup_insert_ne.
    intros <-. by apply is_fresh in Hin.
Qed.

(** X21: Registering in two calls is registering in one: [RegisterMiddleware] for
    an operation, and again for the same, leaves the table and the stacks as
    one call with all the middlewares in that order does. *)
Theorem RegisterMiddleware_twice (m : Opts') (op : string) (mws1 mws2 : list Mw')
    (h : gmap nat (list Mw')) :
  (let '(m1, h1) := RegisterMiddleware m op mws1 h in RegisterMiddleware m1 op mws2 h1)
  = RegisterMiddleware m op (mws1 ++ mws2) h.
Proof.
  unfold RegisterMiddleware. destruct (middlewares m !! op) as [st|] eqn:Hop.
  - rewrite Hop. by rewrite foldl_app.
  - simpl. rewrite lookup_insert_eq. by rewrite foldl_app.
Qed.

(** X22: [RegisterMiddleware] for an operation that the table does not hold yet,
    then [OpMiddlewares] for it: the middleware returned runs error reporting,
    tracing and the optional stages, then the registered middlewares in the
    reverse of the order in which they were given. *)
Theorem RegisterMiddleware_then_OpMiddlewares (m : Opts') (op : string) (mws : list Mw')
    (h : gmap nat (list Mw')) :
  middlewares m !! op = None →
  ∃ mw h',
    (let '(m1, h1) := RegisterMiddleware m op mws h in OpMiddlewares m1 op h1) = Some (mw, h')
    ∧ ∀ next, mw next = inbound (pushed_stages m op ++ reverse mws) next.
Proof.
  intros Hop. rewrite (RegisterMiddleware_fresh m op mws h Hop).
  set (st := fresh (dom h)).
  destruct (OpMiddlewares_on_stack (with_middlewares m (<[op := st]> (middlewares m)))
              op st (reverse mws) h) as (mw & Hmw & Hrun).
  { simpl. apply lookup_insert_eq. }
  eauto.
Qed.

End PipelineMore.

Lemma RegisterMiddleware_then_OpMiddlewares_witness :
  ∃ mw h',
    (let '(m1, h1) := options.RegisterMiddleware ((options.New tt tt : PipelineExamples.Opts)) "shorten"
                        [PipelineExamples.mark "M1"; PipelineExamples.mark "M2";
                         PipelineExamples.mark "M3"] ∅ in
     options.OpMiddlewares (S := PipelineExamples.marking) m1 "shorten" h1) = Some (mw, h')
    ∧ ∀ next, mw next
              = inbound (pushed_stages (S := PipelineExamples.marking)
                           (options.New tt tt : PipelineExamples.Opts) "shorten"
                         ++ reverse [PipelineExamples.mark "M1"; PipelineExamples.mark "M2";
                                     PipelineExamples.mark "M3"]) next.
Proof.
  refine (RegisterMiddleware_then_OpMiddlewares (S := PipelineExamples.marking)
            (options.New tt tt : PipelineExamples.Opts) "shorten" _ ∅ _).
  reflexivity.
Defined.

(** ** Reporting and rendering errors *)

Section ErrorsFacts.
Import mime jennyhttp encoders jennyerrors.
Context {Request Response : Type}.

(** X23: [ErrorReporter] never reports the error: the response is that of the next
    endpoint, and the reporter is told once, after the next endpoint has run,
    with a nil error, also when the next endpoint has failed. *)
Theorem ErrorReporter_reports_nil {World : Type} (reporter : Reporter (World := World))
    (op : string)
    (next : Endpoint (Request := Request) (Response := Response) (World := World))
    (ctx : Context) (request : Request) (world : World) (err : error) :
  (next ctx request world).1 = inr err →
  ErrorReporter reporter op next ctx request world
  = (inr err, Report ctx None op (next ctx request world).2).
Proof.
  intros Herr. unfold ErrorReporter. destruct (next ctx request world) as [i world'].
  simpl in *. by rewrite Herr.
Qed.

Context `{R : GoRuntime} {RS : GoRuntimeSpec R}.

(** X24: [DefaultErrorEncoder] always renders: with non-nil encoders registered for
    [application/json] and [text/plain] it does not panic and hands the error to
    exactly one encoder. Without a client graph in the context that is the
    plain text encoder, and no Content-Type is set; with one, it is the encoder
    registered for one of the two types, and the Content-Type is that type. The
    status is written exactly for an error that has a status code. *)
Theorem DefaultErrorEncoder_renders
    (encoders : gmap string NewEncoderFunc) (json text : EncoderCtor)
    (ctx : Context) (err : error) (w : ResponseWriter) :
  encoders !! ApplicationJSON = Some (Some json) →
  encoders !! TextPlain = Some (Some text) →
  ∃ enc contentType,
    DefaultErrorEncoder encoders ctx err w
    = Some {| ContentType := contentType;
              Status := match StatusCode err with Some code => Some code | None => Status w end;
              Encoded := (Encoded w ++ [(enc, err)])%list |}
    ∧ match Accepts ctx with
      | None => enc = TextEncoder ∧ contentType = ContentType w
      | Some _ => (enc = json ∧ contentType = Some "application/json")
                  ∨ (enc = text ∧ contentType = Some "text/plain")
      end.
Proof.
  intros Hjson Htext. unfold DefaultErrorEncoder.
  destruct (Accepts ctx) as [clientGraph|] eqn:Hctx.
  - destruct (ResponseEncoder_ok_when_registered encoders ctx [ApplicationJSON; TextPlain]
                clientGraph Hctx) as [[Hnil _]|(group & sub & nef & Hin & Hnef & ->)];
      [|done|].
    { intros group sub Hin. vm_compute in Hin.
      apply elem_of_cons in Hin as [[= -> ->]|Hin]; [eauto|].
      apply elem_of_cons in Hin as [[= -> ->]|Hin]; [eauto|].
      by apply not_elem_of_nil in Hin. }
    vm_compute in Hin.
    apply elem_of_cons in Hin as [[= -> ->]|Hin];
      [|apply elem_of_cons in Hin as [[= -> ->]|Hin]; [|by apply not_elem_of_nil in Hin]].
    + change (Sprintf_slash "application" "json") with ApplicationJSON in *.
      rewrite Hjson in Hnef. injection Hnef as <-.
      exists json, (Some ApplicationJSON). split; [by destruct (StatusCode err)|]. by left.
    + change (Sprintf_slash "text" "plain") with TextPlain in *.
      rewrite Htext in Hnef. injection Hnef as <-.
      exists text, (Some TextPlain). split; [by destruct (StatusCode err)|]. by right.
  - unfold ResponseEncoder, ContextAccepts. rewrite Hctx.
    exists TextEncoder, (ContentType w). split; [by destruct (StatusCode err)|]. done.
Qed.

End ErrorsFacts.

Module ErrorsExamples.
Import jennyhttp jennyerrors.
Definition fresh_writer : ResponseWriter :=
  {| ContentType := None; Status := None; Encoded := [] |}.
(** a reporter that keeps what it is told *)
Definition recorder : Reporter (World := list (Context * option error * string)) :=
  {| Report := λ ctx err op world, (world ++ [(ctx, err, op)])%list |}.
Definition failing : Endpoint (Request := string) (Response := string)
                       (World := list (Context * option error * string)) :=
  λ _ _ world, (inr (NewHTTPError "boom" 500), world).
End ErrorsExamples.

Lemma ErrorReporter_reports_nil_witness :
  jennyerrors.ErrorReporter ErrorsExamples.recorder "shorten" ErrorsExamples.failing
    jennyhttp.Background "request" []
  = (inr (jennyerrors.NewHTTPError "boom" 500), [(jennyhttp.Background, None, "shorten")]).
Proof.
  exact (ErrorReporter_reports_nil ErrorsExamples.recorder "shorten" ErrorsExamples.failing
           jennyhttp.Background "request" [] (jennyerrors.NewHTTPError "boom" 500) eq_refl).
Defined.

Lemma DefaultErrorEncoder_renders_witness :
  ∃ enc contentType,
    jennyerrors.DefaultErrorEncoder (R := runtime_fwd) encoders.registry0
      ResolveExamples.ctx_html_then_json (auth_more.ErrJWTNotFoundInContext)
      ErrorsExamples.fresh_writer
    = Some {| jennyerrors.ContentType := contentType;
              jennyerrors.Status := Some 401;
              jennyerrors.Encoded := [(enc, auth_more.ErrJWTNotFoundInContext)] |}
    ∧ ((enc = encoders.JSONEncoder ∧ contentType = Some "application/json")
       ∨ (enc = encoders.TextEncoder ∧ contentType = Some "text/plain")).
Proof.
  exact (DefaultErrorEncoder_renders (R := runtime_fwd) (RS := runtime_fwd_spec)
           encoders.registry0 encoders.JSONEncoder encoders.TextEncoder
           ResolveExamples.ctx_html_then_json auth_more.ErrJWTNotFoundInContext
           ErrorsExamples.fresh_writer eq_refl eq_refl).
Defined.
